(** * Product catalogue service (NestJS): orchestration and object-store wrapper

    A shallow embedding of
      - [src/modules/products/services/minio.service.ts]    (MinioSimpleService)
      - [src/modules/products/services/products.service.ts] (ProductsService)

    JavaScript objects are finite maps from property names to primitive
    values.  The asynchronous methods are functions in a state-and-exception
    monad over a world that holds the state of the external collaborators
    (database behind the repository, MinIO server, clock) together with the
    trace of the calls made to them and of the lines written to the console.
    The collaborators themselves are an interface ([Environment]): every
    statement is proved for all of its implementations.  The check of the
    bucket that the constructor of MinioSimpleService starts
    ([initializeBucket]) is not part of any operation and is left out. *)

From Stdlib Require Import ZArith Ascii String.
From Stdlib.Strings Require Import Byte.
From stdpp Require Import gmap strings list fin_maps pretty.

Open Scope Z_scope.

(** ** JavaScript values and the operators the services use *)

Module JS.

(** Primitive values.  Numbers are integers here: product ids, stock
    quantities, ports and millisecond timestamps; NaN, infinities and
    fractions are outside the model. *)
Inductive val :=
| undefined
| null
| Bool (b : bool)
| Num (n : Z)
| Str (s : string).

#[global] Instance val_eq_dec : EqDecision val.
Proof. solve_decision. Defined.

(** An object is the finite map of its own properties. *)
Abbreviation obj := (gmap string val).

(** [o.k]: a missing property reads as [undefined]. *)
Definition get (o : obj) (k : string) : val := default undefined (o !! k).

(** ToBoolean. *)
Definition truthy (v : val) : bool :=
  match v with
  | undefined | null => false
  | Bool b => b
  | Num n => negb (n =? 0)
  | Str s => negb (String.eqb s "")
  end.

(** [a === b] on primitives. *)
Definition strict_eq (a b : val) : bool := bool_decide (a = b).

(** ToString, as a template literal applies it.  [Num n] prints as plain
    decimal digits, which is what Number::toString does below 10^21. *)
Definition ToString (v : val) : string :=
  match v with
  | undefined => "undefined"
  | null => "null"
  | Bool true => "true"
  | Bool false => "false"
  | Num n => pretty n
  | Str s => s
  end.

(** StringToNumber is the runtime's; [None] stands for NaN. *)
Class StringNumericLiteral := StringToNumber : string → option Z.

(** ToNumber; [None] stands for NaN. *)
Definition ToNumber `{StringNumericLiteral} (v : val) : option Z :=
  match v with
  | undefined => None
  | null => Some 0
  | Bool true => Some 1
  | Bool false => Some 0
  | Num n => Some n
  | Str s => StringToNumber s
  end.

(** [v > n] for a numeric literal [n]: false as soon as [v] converts to NaN. *)
Definition gt `{StringNumericLiteral} (v : val) (n : Z) : bool :=
  match ToNumber v with
  | Some m => n <? m
  | None => false
  end.

(** [s.split(sep)] for a one-character separator: the segments between
    the occurrences of [sep], in order; never empty. *)
Fixpoint split (sep : ascii) (s : string) : list string :=
  match s with
  | EmptyString => [EmptyString]
  | String c s' =>
      if Ascii.eqb c sep then EmptyString :: split sep s'
      else match split sep s' with
           | seg :: segs => String c seg :: segs
           | [] => [String c EmptyString]
           end
  end.

(** An array element that may be missing, as a value. *)
Definition element (o : option string) : val := from_option Str undefined o.

(** [a.pop()] read for its value: the last element, [undefined] on the
    empty array. *)
Definition pop (a : list string) : val := element (last a).

(** [a[a.length - 1]]. *)
Definition at_length_minus_1 (a : list string) : val :=
  element (a !! (length a - 1)%nat).

(** [s.startsWith(p)]. *)
Definition startsWith (s p : string) : bool := String.prefix p s.

End JS.

Import JS.

(** ** Exceptions, external calls and the world *)

(** What a [throw] carries: the three NestJS HTTP exceptions the service
    raises itself, the runtime's [TypeError], and a plain [Error] for
    whatever the database driver or the MinIO client raises. *)
Inductive exn :=
| NotFoundException (message : string)
| BadRequestException (message : string)
| InternalServerErrorException (message : string)
| TypeError (message : string)
| Error (message : string).

#[global] Instance exn_eq_dec : EqDecision exn.
Proof. solve_decision. Defined.

(** [error.message]. *)
Definition message (error : exn) : string :=
  match error with
  | NotFoundException m | BadRequestException m
  | InternalServerErrorException m | TypeError m | Error m => m
  end.

(** The shape of an error as the HTTP layer sees it: the exception class. *)
Inductive shape := NotFound | Validation | Internal | Unexpected.

Definition shape_of (error : exn) : shape :=
  match error with
  | NotFoundException _ => NotFound
  | BadRequestException _ => Validation
  | InternalServerErrorException _ => Internal
  | TypeError _ | Error _ => Unexpected
  end.

(** How an awaited computation settles. *)
Inductive outcome (A : Type) :=
| Returned (a : A)
| Thrown (error : exn).
Arguments Returned {A} a.
Arguments Thrown {A} error.

#[global] Instance outcome_eq_dec {A} `{EqDecision A} : EqDecision (outcome A).
Proof. solve_decision. Defined.

(** Did it return? *)
Definition has_returned {A} (o : outcome A) : bool :=
  match o with
  | Returned _ => true
  | Thrown _ => false
  end.

(** The value a computation settled with, [d] when it threw. *)
Definition value {A} (d : A) (o : outcome A) : A :=
  match o with
  | Returned a => a
  | Thrown _ => d
  end.

(** The calls that leave the process: the methods of
    [TypeORMProductsRepository] the service uses (the class itself is not
    among the sources) and the methods of [Minio.Client].  What the
    repository answers are fresh objects, one for each row: an assignment
    to one of them is seen through no other. *)
Inductive request :=
| Repo_findAll (filters : obj)
| Repo_findById (id : Z)
| Repo_create (dto : obj)
| Repo_update (id : Z) (patch : obj)
| Repo_softDelete (id : Z)
| Minio_putObject (bucket : val) (name : string) (data : list Byte.byte)
                  (size : nat) (metaData : obj)
| Minio_presignedGetObject (bucket : val) (name : val) (expires : Z)
| Minio_removeObject (bucket : val) (name : val).

#[global] Instance byte_eq_dec : EqDecision Byte.byte := Byte.byte_eq_dec.

#[global] Instance request_eq_dec : EqDecision request.
Proof. solve_decision. Defined.

(** What each call resolves to: [findById] yields a product or nothing. *)
Definition response (r : request) : Type :=
  match r with
  | Repo_findAll _ => list obj
  | Repo_findById _ => option obj
  | Repo_create _ => obj
  | Repo_update _ _ => obj
  | Repo_softDelete _ => unit
  | Minio_putObject _ _ _ _ _ => unit
  | Minio_presignedGetObject _ _ _ => string
  | Minio_removeObject _ _ => unit
  end.

(** The collaborators: a state [E], the effect and the answer (or the
    rejection) of every call, and the clock behind [Date.now()]. *)
Class Environment (E : Type) := {
  handle : ∀ r : request, E → outcome (response r) * E;
  Date_now : E → Z;
}.

Inductive stream := Log | Warn | Err.

(** An argument of a console call: a text or a thrown value. *)
Inductive console_arg :=
| Text (s : string)
| Value (e : exn).

Inductive event :=
| Called (r : request)
| Console (to : stream) (args : list console_arg).

#[global] Instance console_arg_eq_dec : EqDecision console_arg.
Proof. solve_decision. Defined.

#[global] Instance stream_eq_dec : EqDecision stream.
Proof. solve_decision. Defined.

#[global] Instance event_eq_dec : EqDecision event.
Proof. solve_decision. Defined.

Record World (E : Type) := mkWorld {
  ext : E;
  trace : list event;
}.
Arguments mkWorld {E} ext trace.
Arguments ext {E} w.
Arguments trace {E} w.

#[global] Instance World_eq_dec {E} `{EqDecision E} : EqDecision (World E).
Proof. solve_decision. Defined.

(** ** The monad of asynchronous methods *)

Definition M (E A : Type) : Type := World E → outcome A * World E.

Section Monad.
Context {E : Type}.

Definition ret {A} (a : A) : M E A := λ w, (Returned a, w).

Definition throw {A} (error : exn) : M E A := λ w, (Thrown error, w).

Definition bind {A B} (m : M E A) (k : A → M E B) : M E B :=
  λ w, match m w with
       | (Returned a, w') => k a w'
       | (Thrown error, w') => (Thrown error, w')
       end.

(** [try { m } catch (error) { h error }]. *)
Definition try_catch {A} (m : M E A) (h : exn → M E A) : M E A :=
  λ w, match m w with
       | (Returned a, w') => (Returned a, w')
       | (Thrown error, w') => h error w'
       end.

(** [await r]: the call is recorded, the environment answers. *)
Definition call `{!Environment E} (r : request) : M E (response r) :=
  λ w, let (o, e') := handle r (ext w) in
       (o, mkWorld e' (trace w ++ [Called r])).

(** [Date.now()]. *)
Definition now `{!Environment E} : M E Z :=
  λ w, (Returned (Date_now (ext w)), w).

(** [console.log], [console.warn], [console.error]. *)
Definition console (to : stream) (args : list console_arg) : M E unit :=
  λ w, (Returned tt, mkWorld (ext w) (trace w ++ [Console to args])).

(** Every task is run to its end, in the order of the array; the
    outcomes are kept by position. *)
Fixpoint settle_all {A} (tasks : list (M E A)) (w : World E)
  : list (outcome A) * World E :=
  match tasks with
  | [] => ([], w)
  | task :: tasks' =>
      let (o, w1) := task w in
      let (os, w2) := settle_all tasks' w1 in
      (o :: os, w2)
  end.

(** The values by position, or the first rejection. *)
Fixpoint all_fulfilled {A} (os : list (outcome A)) : outcome (list A) :=
  match os with
  | [] => Returned []
  | Thrown error :: _ => Thrown error
  | Returned a :: os' =>
      match all_fulfilled os' with
      | Returned l => Returned (a :: l)
      | Thrown error => Thrown error
      end
  end.

(** [await Promise.all(tasks)] on the tasks that mapping an async callback
    has started.  The tasks issue their calls in the order of the array,
    as here.  What a task does once its call has answered (a line on the
    console, the assignment to its own product) may come earlier or later
    than here with respect to the other tasks; the values are kept by
    position whatever that order, and no statement depends on it. *)
Definition Promise_all {A} (tasks : list (M E A)) : M E (list A) :=
  λ w, let (os, w') := settle_all tasks w in (all_fulfilled os, w').

End Monad.

Declare Scope async_scope.
Delimit Scope async_scope with async.
Notation "'let!' x ':=' m 'in' k" := (bind m (λ x, k))
  (at level 10, x name, m at level 100, k at level 200) : async_scope.
Notation "m ';;;' k" := (bind m (λ _, k))
  (at level 100, k at level 200, right associativity) : async_scope.
Open Scope async_scope.

(** ** minio.service.ts *)

Module MinioSimpleService.
Section MinioSimpleService.
Context {E : Type} `{!Environment E}.

(** The instance is given by its [ConfigService]: the configuration keys
    with their values. *)
Context (configService : obj).

Definition bucketName : val := get configService "MINIO_BUCKET".

Definition uploadProductImage (file : list Byte.byte) (productId : Z)
  : M E string :=
  let! millis := now in
  let fileName :=
    "product-" +:+ ToString (Num productId) +:+ "-"
      +:+ ToString (Num millis) +:+ ".jpg" in
  call (Minio_putObject bucketName fileName file (length file)
          {[ "Content-Type" := Str "image/jpeg" ]}) ;;;
  let protocol :=
    if strict_eq (get configService "MINIO_USE_SSL") (Str "true")
    then "https" else "http" in
  let endpoint := get configService "MINIO_ENDPOINT" in
  let port := get configService "MINIO_PORT" in
  ret (protocol +:+ "://" +:+ ToString endpoint +:+ ":" +:+ ToString port
         +:+ "/" +:+ ToString bucketName +:+ "/" +:+ fileName).

Definition getSignedUrl (fileName : val) : M E val :=
  if negb (truthy fileName) then ret null
  else
    (* 7 days *)
    let expiresIn := 7 * 24 * 60 * 60 in
    try_catch
      (let! signedUrl :=
         call (Minio_presignedGetObject bucketName fileName expiresIn) in
       ret (Str signedUrl))
      (λ error,
         console Err [Text "Ошибка при генерации подписанной ссылки:";
                      Text (message error)] ;;;
         ret null).

Definition deleteFile (fileName : val) : M E unit :=
  try_catch
    (call (Minio_removeObject bucketName fileName))
    (λ error,
       console Err [Text "Ошибка при удалении файла из MinIO:";
                    Text (message error)] ;;;
       throw error).

End MinioSimpleService.
End MinioSimpleService.

(** ** products.service.ts *)

(** The part of [Express.Multer.File] the service reads. *)
Record MulterFile := {
  mimetype : string;
  buffer : list Byte.byte;
}.

Module ProductsService.
Section ProductsService.
Context {E : Type} `{!Environment E} `{!StringNumericLiteral}.

(** The injected [MinioSimpleService], given by its [ConfigService]. *)
Context (minioService : obj).

(** [imageUrl.split('/')]: only a string has the method. *)
Definition split_slash (imageUrl : val) : M E (list string) :=
  match imageUrl with
  | Str s => ret (split "/" s)
  | _ => throw (TypeError "imageUrl.split is not a function")
  end.

(** The block that [findAll], [findById], [update] and [uploadImage] each
    repeat on the product they are about to return: the stored URL is
    replaced by a signed one, or the property is deleted.  [sign] is
    [this.minioService.getSignedUrl]; [onError] is what the [catch] does
    before deleting (a warning in [findAll], nothing elsewhere). *)
Definition signImageUrl (sign : val → M E val) (onError : exn → M E unit)
    (product : obj) : M E obj :=
  if truthy (get product "imageUrl") then
    let! parts := split_slash (get product "imageUrl") in
    let fileName := pop parts in
    try_catch
      (let! signedUrl := sign fileName in
       if truthy signedUrl
       then ret (<["imageUrl" := signedUrl]> product)
       else ret (delete "imageUrl" product))
      (λ error,
         onError error ;;;
         ret (delete "imageUrl" product))
  else ret product.

Definition notFound (id : Z) : exn :=
  NotFoundException ("Товар с ID " +:+ ToString (Num id) +:+ " не найден").

(** [filters] after the first statement of [findAll]: deleted products
    are not shown by default. *)
Definition withDefaultIncludeDeleted (filters : obj) : obj :=
  if strict_eq (get filters "includeDeleted") undefined
  then <["includeDeleted" := Bool false]> filters
  else filters.

(** The callback that [findAll] maps over the products: a signed link
    for every product with an image. *)
Definition withSignedUrl (product : obj) : M E obj :=
  let! product :=
    signImageUrl (MinioSimpleService.getSignedUrl minioService)
      (λ error,
         console Warn [Text "Не удалось получить ссылку для файла:";
                       Value error])
      product in
  ret (delete "isDeleted" product).

Definition findAll (filters : obj) : M E (list obj) :=
  let filters := withDefaultIncludeDeleted filters in
  let! products := call (Repo_findAll filters) in
  let! productsWithSignedUrls :=
    Promise_all (map withSignedUrl products) in
  ret productsWithSignedUrls.

Definition findById (id : Z) : M E obj :=
  let! product := call (Repo_findById id) in
  match product with
  | None => throw (notFound id)
  | Some product =>
      if truthy (get product "isDeleted") then throw (notFound id)
      else
        let! product :=
          signImageUrl (MinioSimpleService.getSignedUrl minioService)
            (λ _, ret tt) product in
        ret (delete "isDeleted" product)
  end.

(** [createProductDto] after the first statement of [create]. *)
Definition withInStockOnZeroStock (createProductDto : obj) : obj :=
  if strict_eq (get createProductDto "stockQuantity") (Num 0)
  then <["inStock" := Bool false]> createProductDto
  else createProductDto.

Definition create (createProductDto : obj) : M E obj :=
  let createProductDto := withInStockOnZeroStock createProductDto in
  let! product := call (Repo_create createProductDto) in
  ret (delete "isDeleted" product).

(** [updateProductDto] after the statement of [update] that derives
    [inStock]. *)
Definition withInStockFromStock (updateProductDto : obj) : obj :=
  if negb (strict_eq (get updateProductDto "stockQuantity") undefined)
  then <["inStock" := Bool (gt (get updateProductDto "stockQuantity") 0)]>
         updateProductDto
  else updateProductDto.

Definition update (id : Z) (updateProductDto : obj) : M E obj :=
  let! product := call (Repo_findById id) in
  match product with
  | None => throw (notFound id)
  | Some product =>
      if truthy (get product "isDeleted")
      then throw (BadRequestException "Нельзя обновлять удалённый товар")
      else
        let updateProductDto := withInStockFromStock updateProductDto in
        let! updatedProduct := call (Repo_update id updateProductDto) in
        let! updatedProduct :=
          signImageUrl (MinioSimpleService.getSignedUrl minioService)
            (λ _, ret tt) updatedProduct in
        ret (delete "isDeleted" updatedProduct)
  end.

Definition remove (id : Z) : M E unit :=
  let! product := call (Repo_findById id) in
  match product with
  | None => throw (notFound id)
  | Some product =>
      if truthy (get product "isDeleted") then throw (notFound id)
      else call (Repo_softDelete id)
  end.

Definition deleteOldImage (imageUrl : val) : M E unit :=
  try_catch
    (let! urlParts := split_slash imageUrl in
     let fileName := at_length_minus_1 urlParts in
     MinioSimpleService.deleteFile minioService fileName)
    (λ error,
       (* not rethrown: a failure here is not critical *)
       console Warn [Text "Не удалось удалить старое изображение:";
                     Text (message error)]).

(** The body of the [try] of [uploadImage]. *)
Definition replaceImage (id : Z) (product : obj) (file : MulterFile)
  : M E obj :=
  (* the old image goes, if there is one *)
  (if truthy (get product "imageUrl")
   then deleteOldImage (get product "imageUrl")
   else ret tt) ;;;
  (* the new image goes to MinIO *)
  let! imageUrl :=
    MinioSimpleService.uploadProductImage minioService (buffer file) id in
  (* the record of the product gets the new URL *)
  let! updatedProduct :=
    call (Repo_update id {[ "imageUrl" := Str imageUrl ]}) in
  (* a signed link for the new image *)
  let! updatedProduct :=
    signImageUrl (MinioSimpleService.getSignedUrl minioService)
      (λ _, ret tt) updatedProduct in
  ret (delete "isDeleted" updatedProduct).

(** The [catch] of [uploadImage]. *)
Definition uploadFailed (error : exn) : M E obj :=
  console Err [Text "Ошибка при загрузке изображения:"; Value error] ;;;
  throw (InternalServerErrorException "Не удалось загрузить изображение").

Definition uploadImage (id : Z) (file : option MulterFile) : M E obj :=
  (* the product must exist *)
  let! product := call (Repo_findById id) in
  match product with
  | None => throw (notFound id)
  | Some product =>
  if truthy (get product "isDeleted") then throw (notFound id)
  else
  (* the file must be there and be an image *)
  match file with
  | None => throw (BadRequestException "Файл не предоставлен")
  | Some file =>
  if negb (startsWith (mimetype file) "image/")
  then throw (BadRequestException "Файл должен быть изображением")
  else try_catch (replaceImage id product file) uploadFailed
  end
  end.

End ProductsService.
End ProductsService.

(** ** A reference environment *)

Module InMemory.

(** Modelled from the spec: [TypeORMProductsRepository] is not among the
    sources.  Section 6 gives its contract ([findAll(filters)],
    [findById(id)] yielding a product or nothing, [create(fields)],
    [update(id, patch)], [softDelete(id)]) and section 3 its behaviour:
    the repository assigns the id, an update is a partial update of the
    fields, a soft delete flips the flag and never removes the row, and a
    listing leaves the deleted rows out unless they are asked for.  The
    table is the list of its rows in insertion order; the connection to
    the database can be down.  Next to it stands a MinIO server with a
    single bucket, which can be unreachable, or hold its objects under
    retention, so that they cannot be removed. *)
Record state := mkState {
  rows : list obj;
  next_id : Z;
  connected : bool;
  objects : gmap string (list Byte.byte);
  reachable : bool;
  retention : bool;
  millis : Z;
}.

#[global] Instance state_eq_dec : EqDecision state.
Proof. solve_decision. Defined.

Definition has_id (id : Z) (row : obj) : bool :=
  strict_eq (get row "id") (Num id).

Definition with_rows (s : state) (rs : list obj) (next : Z) : state :=
  mkState rs next (connected s) (objects s) (reachable s) (retention s)
    (millis s).

Definition with_objects (s : state) (os : gmap string (list Byte.byte))
  : state :=
  mkState (rows s) (next_id s) (connected s) os (reachable s) (retention s)
    (millis s).

Definition listed (filters row : obj) : bool :=
  truthy (get filters "includeDeleted") || negb (truthy (get row "isDeleted")).

Definition repo_findAll (filters : obj) (s : state) : list obj :=
  List.filter (listed filters) (rows s).

Definition repo_findById (id : Z) (s : state) : option obj :=
  List.find (has_id id) (rows s).

Definition repo_create (dto : obj) (s : state) : obj * state :=
  let row := <["id" := Num (next_id s)]> (<["isDeleted" := Bool false]> dto) in
  (row, with_rows s (rows s ++ [row]) (next_id s + 1)).

Definition replace_row (id : Z) (f : obj → obj) (s : state) : state :=
  with_rows s (map (λ row, if has_id id row then f row else row) (rows s))
    (next_id s).

Definition repo_update (id : Z) (patch : obj) (s : state)
  : outcome obj * state :=
  match repo_findById id s with
  | Some row =>
      let row' := <["id" := Num id]> (patch ∪ row) in
      (Returned row', replace_row id (λ _, row') s)
  | None => (Thrown (Error "no row to update"), s)
  end.

Definition repo_softDelete (id : Z) (s : state) : state :=
  replace_row id (λ row, <["isDeleted" := Bool true]> row) s.

Definition database (s : state) {A} (k : outcome A * state)
  : outcome A * state :=
  if connected s then k else (Thrown (Error "Connection terminated"), s).

Definition minio (s : state) {A} (name : val)
    (k : string → outcome A * state) : outcome A * state :=
  if reachable s then
    match name with
    | Str key => k key
    | _ => (Thrown (Error "Invalid object name"), s)
    end
  else (Thrown (Error "connect ECONNREFUSED"), s).

Definition answer (r : request) (s : state) : outcome (response r) * state :=
  match r with
  | Repo_findAll filters =>
      database s (Returned (repo_findAll filters s), s)
  | Repo_findById id =>
      database s (Returned (repo_findById id s), s)
  | Repo_create dto =>
      database s (let (row, s') := repo_create dto s in (Returned row, s'))
  | Repo_update id patch =>
      database s (repo_update id patch s)
  | Repo_softDelete id =>
      database s (Returned tt, repo_softDelete id s)
  | Minio_putObject _ name data _ _ =>
      minio s (Str name)
        (λ key, (Returned tt, with_objects s (<[key := data]> (objects s))))
  | Minio_presignedGetObject bucket name expires =>
      minio s name
        (λ key, (Returned ("https://minio.local/" +:+ ToString bucket +:+ "/"
                             +:+ key +:+ "?X-Amz-Expires=" +:+ pretty expires),
                 s))
  | Minio_removeObject _ name =>
      minio s name
        (λ key,
           if retention s
           then (Thrown (Error "Object is WORM protected"), s)
           else (Returned tt, with_objects s (delete key (objects s))))
  end.

#[global] Instance environment : Environment state := {|
  handle := answer;
  Date_now := millis;
|}.

Definition digit (c : ascii) : option Z :=
  let n := Z.of_nat (nat_of_ascii c) in
  if (48 <=? n) && (n <=? 57) then Some (n - 48) else None.

Fixpoint digits (acc : Z) (s : string) : option Z :=
  match s with
  | EmptyString => Some acc
  | String c s' =>
      match digit c with
      | Some d => digits (10 * acc + d) s'
      | None => None
      end
  end.

(** StringToNumber on the empty string and on decimal integer numerals
    with an optional minus sign; every other string is taken as NaN. *)
#[global] Instance decimal : StringNumericLiteral := λ s,
  match s with
  | EmptyString => Some 0
  | String "-" (String c s') => Z.opp <$> digits 0 (String c s')
  | _ => digits 0 s
  end.

(** A catalogue with a widget that has an image, a gadget without one and
    a soft-deleted gizmo. *)
Definition widgetUrl : string :=
  "http://minio:9000/products/product-1-1700000000000.jpg".

Definition widget : obj :=
  {[ "id" := Num 1; "name" := Str "Widget"; "price" := Num 10;
     "stockQuantity" := Num 3; "inStock" := Bool true;
     "imageUrl" := Str widgetUrl; "isDeleted" := Bool false ]}.

Definition gadget : obj :=
  {[ "id" := Num 2; "name" := Str "Gadget"; "price" := Num 25;
     "stockQuantity" := Num 0; "inStock" := Bool false;
     "imageUrl" := null; "isDeleted" := Bool false ]}.

Definition gizmo : obj :=
  {[ "id" := Num 3; "name" := Str "Gizmo"; "price" := Num 7;
     "stockQuantity" := Num 1; "inStock" := Bool true;
     "imageUrl" := null; "isDeleted" := Bool true ]}.

Definition shop (db up locked : bool) : state :=
  {| rows := [widget; gadget; gizmo]; next_id := 4; connected := db;
     objects := {[ "product-1-1700000000000.jpg" := [Byte.xff; Byte.xd8] ]};
     reachable := up; retention := locked; millis := 1700000123456 |}.

(** Everything works; or the MinIO server cannot be reached. *)
Definition catalogue (up : bool) : state := shop true up false.

Definition config : obj :=
  {[ "MINIO_ENDPOINT" := Str "minio"; "MINIO_PORT" := Str "9000";
     "MINIO_USE_SSL" := Str "false"; "MINIO_BUCKET" := Str "products";
     "MINIO_ACCESS_KEY" := Str "minioadmin";
     "MINIO_SECRET_KEY" := Str "minioadmin" ]}.

Definition start (up : bool) : World state := mkWorld (catalogue up) [].

(** The objects of the bucket are under retention. *)
Definition locked : World state := mkWorld (shop true true true) [].

(** The database is down. *)
Definition disconnected : World state := mkWorld (shop false true false) [].

Definition jpeg : MulterFile :=
  {| mimetype := "image/jpeg"; buffer := [Byte.xff; Byte.xd8; Byte.xff] |}.

Definition pdf : MulterFile :=
  {| mimetype := "application/pdf"; buffer := [Byte.x25; Byte.x50] |}.

(** The example of the specification: a new widget with no stock that
    claims to be in stock. *)
Definition newWidget : obj :=
  {[ "name" := Str "Widget"; "price" := Num 10; "stockQuantity" := Num 0;
     "inStock" := Bool true ]}.

Definition newGadget : obj :=
  {[ "name" := Str "Gadget"; "price" := Num 25; "stockQuantity" := Num 4;
     "inStock" := Bool false ]}.

Definition restock : obj := {[ "stockQuantity" := Num 5; "inStock" := Bool false ]}.



Definition withDeleted : obj := {[ "includeDeleted" := Bool true ]}.

End InMemory.

(** ** Vocabulary of the statements *)

Section Vocabulary.
Context {E : Type} `{!Environment E}.

(** The computation ends in an error of the given shape. *)
Definition fails_with {A} (s : shape) (r : outcome A * World E) : Prop :=
  ∃ error, r.1 = Thrown error ∧ shape_of error = s.

(** In state [e] the repository knows no live product under [id]: the
    lookup finds nothing, or a product flagged as deleted. *)
Definition not_live (id : Z) (e : E) : Prop :=
  (handle (Repo_findById id) e).1 = Returned None ∨
  ∃ product, (handle (Repo_findById id) e).1 = Returned (Some product) ∧
             truthy (get product "isDeleted") = true.

(** In state [e] the lookup of [id] finds the live product [product] and
    leaves the state [e']. *)
Definition live (id : Z) (product : obj) (e e' : E) : Prop :=
  handle (Repo_findById id) e = (Returned (Some product), e') ∧
  truthy (get product "isDeleted") = false.

(** Modelled from the spec: the part of the contract of the repository
    ([TypeORMProductsRepository] is not among the sources) that [remove]
    relies on.  A lookup only reads; and a soft delete "flips the
    soft-delete flag", the record being "never physically removed": once
    it has succeeded, the lookup of that id answers, and not with a live
    product. *)
Record RepositoryContract : Prop := {
  findById_reads : ∀ id e, (handle (Repo_findById id) e).2 = e;
  softDelete_flags : ∀ id e e',
    handle (Repo_softDelete id) e = (Returned tt, e') → not_live id e';
}.

(** [ProductEntity] declares [imageUrl] as a string column: a product the
    repository hands out has a string there, or nothing. *)
Definition image_typed (product : obj) : Prop :=
  truthy (get product "imageUrl") = true → ∃ url, get product "imageUrl" = Str url.

(** What is asked of the product [r] that an operation returns, when the
    signer [sign] is asked for the object [fileName] in world [w]: the
    signed URL when there is one, no [imageUrl] property at all when the
    signer yields nothing or throws. *)
Definition image_resolved (sign : val → M E val) (fileName : val)
    (w : World E) (r : obj) : Prop :=
  match (sign fileName w).1 with
  | Returned signedUrl =>
      if truthy signedUrl then r !! "imageUrl" = Some signedUrl
      else r !! "imageUrl" = None
  | Thrown _ => r !! "imageUrl" = None
  end.

(** [r] is the product [p] up to the two properties the service touches. *)
Definition same_product (p r : obj) : Prop :=
  ∀ k : string, k ≠ "imageUrl" → k ≠ "isDeleted" → r !! k = p !! k.

(** The computation only adds to the trace, and what it adds are events
    of the kind [P]. *)
Definition emits {A} (P : event → Prop) (m : M E A) : Prop :=
  ∀ w, ∃ t, trace (m w).2 = trace w ++ t ∧ Forall P t.

(** Whatever the computation returns satisfies [Q]. *)
Definition yields {A} (Q : A → Prop) (m : M E A) : Prop :=
  ∀ w a w', m w = (Returned a, w') → Q a.

(** The events of signing: the request for a signed URL and the console. *)
Definition of_signing (ev : event) : Prop :=
  match ev with
  | Called (Minio_presignedGetObject _ _ _) | Console _ _ => True
  | Called _ => False
  end.

End Vocabulary.

(** ** The start-up of the MinIO service *)

(** The two calls of [Minio.Client] that only the start-up makes.  They
    act on the state of the collaborators; they are not among the requests
    of the operations, and leave the trace to the console. *)
Class BucketClient (E : Type) := {
  bucketExists : val → E → outcome bool * E;
  makeBucket : val → string → E → outcome unit * E;
}.

Section Startup.
Context {E : Type} `{!BucketClient E}.

(** [await] of a call of the bucket client. *)
Definition ask {A} (f : E → outcome A * E) : M E A :=
  λ w, let (o, e') := f (ext w) in (o, mkWorld e' (trace w)).

(** The quotation mark of the message of [initializeBucket]. *)
Definition quotationMark : string := String "034" EmptyString.

Definition initializeBucket (configService : obj) : M E unit :=
  let bucketName := MinioSimpleService.bucketName configService in
  try_catch
    (let! exists_ := ask (bucketExists bucketName) in
     if negb exists_ then
       ask (makeBucket bucketName "us-east-1") ;;;
       console Log [Text ("Бакет " +:+ quotationMark +:+ ToString bucketName
                            +:+ quotationMark +:+ " создан в MinIO")]
     else ret tt)
    (λ error,
       console Err [Text "Ошибка при инициализации бакета MinIO:";
                    Text (message error)]).

End Startup.

(** ** products.controller.ts: the route that answers with a payload of
    its own *)

(** [new Date(millis).toISOString()] is the runtime's. *)
Class DateToISOString := toISOString : Z → string.

Module ProductsController.
Section ProductsController.
Context {E : Type} `{!Environment E} `{!DateToISOString}.

Definition deleteProduct (id : Z) : M E obj :=
  ProductsService.remove id ;;;
  let! millis := now in
  ret {[ "message" :=
           Str ("Товар с ID " +:+ ToString (Num id) +:+ " успешно удален");
         "status" := Str "success";
         "timestamp" := Str (toISOString millis) ]}.

End ProductsController.
End ProductsController.

(** ** More vocabulary: the kinds of events, keys without a slash *)

Inductive kind :=
| RepoFindAll | RepoFindById | RepoCreate | RepoUpdate | RepoSoftDelete
| PutObject | PresignedGetObject | RemoveObject | ConsoleLine.

#[global] Instance kind_eq_dec : EqDecision kind.
Proof. solve_decision. Defined.

Definition kind_of (ev : event) : kind :=
  match ev with
  | Called (Repo_findAll _) => RepoFindAll
  | Called (Repo_findById _) => RepoFindById
  | Called (Repo_create _) => RepoCreate
  | Called (Repo_update _ _) => RepoUpdate
  | Called (Repo_softDelete _) => RepoSoftDelete
  | Called (Minio_putObject _ _ _ _ _) => PutObject
  | Called (Minio_presignedGetObject _ _ _) => PresignedGetObject
  | Called (Minio_removeObject _ _) => RemoveObject
  | Console _ _ => ConsoleLine
  end.

(** The event is of one of the kinds [ks]. *)
Definition among (ks : list kind) (ev : event) : Prop := kind_of ev ∈ ks.

(** The event, when it is a call of the MinIO client, names the bucket
    [bucket]. *)
Definition in_bucket (bucket : val) (ev : event) : Prop :=
  match ev with
  | Called (Minio_putObject b _ _ _ _)
  | Called (Minio_presignedGetObject b _ _)
  | Called (Minio_removeObject b _) => b = bucket
  | _ => True
  end.

(** No character of the string is a slash. *)
Fixpoint slashless (s : string) : bool :=
  match s with
  | EmptyString => true
  | String c s' => negb (Ascii.eqb c "/") && slashless s'
  end.

(** [key] is the trailing path segment of [url]: what stands after the
    last slash of [url], or the whole of it when it has no slash. *)
Definition trailing (url key : string) : Prop :=
  slashless key = true ∧ (url = key ∨ ∃ before, url = before +:+ "/" +:+ key).

(** The products [rs] answer the products [ps] one for one, and [Q] holds
    of each pair in the world in which its turn comes: of the first in
    [w], of the second in the world in which [item] has left [w] after
    the first, and so on. *)
Fixpoint in_turn {E} (item : obj → M E obj)
    (Q : obj → World E → obj → Prop) (ps rs : list obj) (w : World E) : Prop :=
  match ps, rs with
  | [], [] => True
  | p :: ps', r :: rs' => Q p w r ∧ in_turn item Q ps' rs' (item p w).2
  | _, _ => False
  end.

(** The key [uploadProductImage] stores under when the clock shows
    [millis]. *)
Definition objectKey (productId millis : Z) : string :=
  "product-" +:+ pretty productId +:+ "-" +:+ pretty millis +:+ ".jpg".

(** The request for a signed URL that a product with an image gives rise
    to: none when it has no image, or when its URL ends in a slash. *)
Definition signing_request (bucket : val) (product : obj) : list event :=
  if truthy (get product "imageUrl") then
    match get product "imageUrl" with
    | Str url =>
        if truthy (pop (split "/" url))
        then [Called (Minio_presignedGetObject bucket (pop (split "/" url))
                        604800)]
        else []
    | _ => []
    end
  else [].

(** The first thing the computation does is the call [r]. *)
Definition begins_with {E A} (r : request) (m : M E A) : Prop :=
  ∀ w, ∃ rest, trace (m w).2 = trace w ++ Called r :: rest.

(** The calls among the events. *)
Definition calls (t : list event) : list event :=
  List.filter (λ ev, match ev with Called _ => true | Console _ _ => false end) t.

(** ** Reference instances for the start-up and the controller *)

Module Reference.

(** A MinIO server as the start-up sees it: the buckets it holds, whether
    it can be reached, and whether the account may make buckets. *)
Record server := mkServer {
  buckets : list val;
  online : bool;
  writable : bool;
}.

#[global] Instance server_eq_dec : EqDecision server.
Proof. solve_decision. Defined.

#[global] Instance bucket_client : BucketClient server := {|
  bucketExists bucket s :=
    if online s then (Returned (bool_decide (bucket ∈ buckets s)), s)
    else (Thrown (Error "connect ECONNREFUSED"), s);
  makeBucket bucket region s :=
    if online s then
      if writable s
      then (Returned tt, mkServer (bucket :: buckets s) (online s) (writable s))
      else (Thrown (Error "Access Denied."), s)
    else (Thrown (Error "connect ECONNREFUSED"), s);
|}.

(** The reference repository behind a connection that only reads: what
    would write is refused, the rest is answered as before. *)
Record replica := mkReplica { primary : InMemory.state }.

#[global] Instance replica_eq_dec : EqDecision replica.
Proof. solve_decision. Defined.

Definition refused {A} : outcome A :=
  Thrown (Error "cannot execute UPDATE in a read-only transaction").

Definition answer_reading (r : request) (s : replica)
  : outcome (response r) * replica :=
  match r with
  | Repo_create _ => (refused, s)
  | Repo_update _ _ => (refused, s)
  | Repo_softDelete _ => (refused, s)
  | r => let (o, s') := InMemory.answer r (primary s) in (o, mkReplica s')
  end.

Definition reading : Environment replica := {|
  handle := answer_reading;
  Date_now s := InMemory.millis (primary s);
|}.

Definition standby : World replica :=
  mkWorld (mkReplica (InMemory.catalogue true)) [].

(** The widget is sold out and goes out of the catalogue. *)
Definition soldOut : World InMemory.state :=
  mkWorld (InMemory.repo_softDelete 1 (InMemory.catalogue true)) [].

(** Two decimal digits, three, four. *)
Definition pad (width : nat) (n : Z) : string :=
  let digits := pretty n in
  String.concat "" (replicate (width - String.length digits)%nat "0") +:+ digits.

(** [toISOString] for the years 0 to 9999: the civil date of a day count
    since 1970-01-01 in the proleptic Gregorian calendar, then the time of
    day. *)
#[global] Instance iso : DateToISOString := λ millis,
  let days := millis / 86400000 in
  let ms := millis mod 86400000 in
  let z := days + 719468 in
  let era := z / 146097 in
  let doe := z - era * 146097 in
  let yoe := (doe - doe / 1460 + doe / 36524 - doe / 146096) / 365 in
  let doy := doe - (365 * yoe + yoe / 4 - yoe / 100) in
  let mp := (5 * doy + 2) / 153 in
  let d := doy - (153 * mp + 2) / 5 + 1 in
  let m := if mp <? 10 then mp + 3 else mp - 9 in
  let y := yoe + era * 400 + (if m <=? 2 then 1 else 0) in
  pad 4 y +:+ "-" +:+ pad 2 m +:+ "-" +:+ pad 2 d +:+ "T"
    +:+ pad 2 (ms / 3600000) +:+ ":" +:+ pad 2 (ms / 60000 mod 60) +:+ ":"
    +:+ pad 2 (ms / 1000 mod 60) +:+ "." +:+ pad 3 (ms mod 1000) +:+ "Z".

Definition fresh : World server := mkWorld (mkServer [] true true) [].
Definition ready : World server :=
  mkWorld (mkServer [Str "products"] true true) [].
Definition offline : World server := mkWorld (mkServer [] false true) [].
Definition denied : World server := mkWorld (mkServer [] true false) [].

End Reference.

(** * Properties *)

Import MinioSimpleService ProductsService.

(** ** The monad *)

Section MonadFacts.
Context {E : Type} `{!Environment E}.

Lemma bind_Returned {A B} (m : M E A) (k : A → M E B) w a w' :
  m w = (Returned a, w') → bind m k w = k a w'.
Proof. intros Hm. unfold bind. by rewrite Hm. Qed.

Lemma bind_Thrown {A B} (m : M E A) (k : A → M E B) w error w' :
  m w = (Thrown error, w') → bind m k w = (Thrown error, w').
Proof. intros Hm. unfold bind. by rewrite Hm. Qed.

Lemma try_catch_Returned {A} (m : M E A) h w a w' :
  m w = (Returned a, w') → try_catch m h w = (Returned a, w').
Proof. intros Hm. unfold try_catch. by rewrite Hm. Qed.

Lemma try_catch_Thrown {A} (m : M E A) h w error w' :
  m w = (Thrown error, w') → try_catch m h w = h error w'.
Proof. intros Hm. unfold try_catch. by rewrite Hm. Qed.

Lemma call_handle r (w : World E) o e' :
  handle r (ext w) = (o, e') →
  call r w = (o, mkWorld e' (trace w ++ [Called r])).
Proof. intros Hr. unfold call. by rewrite Hr. Qed.

Lemma call_fst r (w : World E) : (call r w).1 = (handle r (ext w)).1.
Proof. unfold call. by destruct (handle r (ext w)). Qed.

Lemma call_world r (w : World E) :
  (call r w).2 = mkWorld (handle r (ext w)).2 (trace w ++ [Called r]).
Proof. unfold call. by destruct (handle r (ext w)). Qed.

(** Every building block only adds to the trace. *)

Lemma emits_ret {A} P (a : A) : emits (E:=E) P (ret a).
Proof. intros w. exists []. by rewrite app_nil_r. Qed.

Lemma emits_throw {A} P error : emits (E:=E) P (throw (A:=A) error).
Proof. intros w. exists []. by rewrite app_nil_r. Qed.

Lemma emits_call (P : event → Prop) r : P (Called r) → emits P (call r).
Proof.
  intros HP w. exists [Called r]. rewrite call_world. split; [done|].
  by apply Forall_singleton.
Qed.

Lemma emits_console (P : event → Prop) to args :
  P (Console to args) → emits (E:=E) P (console to args).
Proof.
  intros HP w. exists [Console to args]. split; [done|].
  by apply Forall_singleton.
Qed.

Lemma emits_now P : emits P now.
Proof. intros w. exists []. by rewrite app_nil_r. Qed.

Lemma emits_bind {A B} P (m : M E A) (k : A → M E B) :
  emits P m → (∀ a, emits P (k a)) → emits P (bind m k).
Proof.
  intros Hm Hk w. unfold bind. destruct (Hm w) as (t & Ht & HPt).
  destruct (m w) as [[a|error] w1]; simpl in *.
  - destruct (Hk a w1) as (t' & Ht' & HPt'). exists (t ++ t').
    rewrite Ht', Ht, app_assoc. split; [done|]. by apply Forall_app.
  - by exists t.
Qed.

Lemma emits_try_catch {A} P (m : M E A) h :
  emits P m → (∀ error, emits P (h error)) → emits P (try_catch m h).
Proof.
  intros Hm Hh w. unfold try_catch. destruct (Hm w) as (t & Ht & HPt).
  destruct (m w) as [[a|error] w1]; simpl in *.
  - by exists t.
  - destruct (Hh error w1) as (t' & Ht' & HPt'). exists (t ++ t').
    rewrite Ht', Ht, app_assoc. split; [done|]. by apply Forall_app.
Qed.

Lemma emits_settle_all {A} P (tasks : list (M E A)) :
  Forall (emits P) tasks →
  ∀ w, ∃ t, trace (settle_all tasks w).2 = trace w ++ t ∧ Forall P t.
Proof.
  induction 1 as [|task tasks Htask _ IH]; intros w; simpl.
  - exists []. by rewrite app_nil_r.
  - destruct (Htask w) as (t & Ht & HPt).
    destruct (task w) as [o w1]; simpl in *.
    destruct (IH w1) as (t' & Ht' & HPt').
    destruct (settle_all tasks w1) as [os w2]. simpl in *.
    exists (t ++ t'). rewrite Ht', Ht, app_assoc. split; [done|].
    by apply Forall_app.
Qed.

Lemma emits_Promise_all {A} P (tasks : list (M E A)) :
  Forall (emits P) tasks → emits P (Promise_all tasks).
Proof.
  intros Htasks w. unfold Promise_all.
  destruct (emits_settle_all P tasks Htasks w) as (t & Ht & HPt).
  destruct (settle_all tasks w) as [os w']. by exists t.
Qed.

(** What is returned comes from the last step. *)

Lemma yields_ret {A} (Q : A → Prop) a : Q a → yields (E:=E) Q (ret a).
Proof. intros HQ w a' w' [= <- _]. done. Qed.

Lemma yields_throw {A} (Q : A → Prop) error : yields (E:=E) Q (throw error).
Proof. intros w a w' [=]. Qed.

Lemma yields_bind_of {A B} (R : A → Prop) (Q : B → Prop)
    (m : M E A) (k : A → M E B) :
  yields R m → (∀ a, R a → yields Q (k a)) → yields Q (bind m k).
Proof.
  intros Hm Hk w b w'. unfold bind.
  destruct (m w) as [[a|error] w1] eqn:Hmw; [|done].
  apply Hk. by eapply Hm.
Qed.

Lemma yields_bind {A B} (Q : B → Prop) (m : M E A) (k : A → M E B) :
  (∀ a, yields Q (k a)) → yields Q (bind m k).
Proof.
  intros Hk. apply (yields_bind_of (λ _, True)); [done|]. intros a _. apply Hk.
Qed.

Lemma yields_try_catch {A} (Q : A → Prop) (m : M E A) h :
  yields Q m → (∀ error, yields Q (h error)) → yields Q (try_catch m h).
Proof.
  intros Hm Hh w a w'. unfold try_catch.
  destruct (m w) as [[a1|error] w1] eqn:Hmw.
  - intros [= <- _]. by eapply Hm.
  - apply Hh.
Qed.

Lemma all_fulfilled_Forall {A} (Q : A → Prop) (os : list (outcome A)) l :
  Forall (λ o, ∀ a, o = Returned a → Q a) os →
  all_fulfilled os = Returned l → Forall Q l.
Proof.
  intros Hos. revert l.
  induction Hos as [|o os Ho _ IH]; intros l; simpl.
  - by intros [= <-].
  - destruct o as [a|error]; [|done].
    destruct (all_fulfilled os) as [l'|error]; [|done].
    intros [= <-]. constructor; [by apply Ho|by apply IH].
Qed.

Lemma settle_all_Forall {A} (Q : A → Prop) (tasks : list (M E A)) w :
  Forall (yields Q) tasks →
  Forall (λ o, ∀ a, o = Returned a → Q a) (settle_all tasks w).1.
Proof.
  intros Htasks. revert w.
  induction Htasks as [|task tasks Htask _ IH]; intros w; simpl; [done|].
  destruct (task w) as [o w1] eqn:Htw. specialize (IH w1).
  destruct (settle_all tasks w1) as [os w2]. simpl in *.
  constructor; [|done]. intros a ->. by eapply Htask.
Qed.

Lemma yields_Promise_all {A} (Q : A → Prop) (tasks : list (M E A)) :
  Forall (yields Q) tasks → yields (Forall Q) (Promise_all tasks).
Proof.
  intros Htasks w l w'. unfold Promise_all.
  pose proof (settle_all_Forall Q tasks w Htasks) as Hos.
  destruct (settle_all tasks w) as [os w1]. simpl in Hos.
  intros [= Hl _]. by eapply all_fulfilled_Forall.
Qed.

Lemma bind_call_trace {A} P r (k : response r → M E A) (w : World E) :
  (∀ a, emits P (k a)) →
  ∃ rest, trace (bind (call r) k w).2 = trace w ++ Called r :: rest ∧
          Forall P rest.
Proof.
  intros Hk. unfold bind. rewrite (surjective_pairing (call r w)).
  rewrite call_world.
  destruct (call r w).1 as [a|error]; simpl.
  - destruct (Hk a (mkWorld (handle r (ext w)).2 (trace w ++ [Called r])))
      as (t & Ht & HPt).
    exists t. rewrite Ht. simpl. by rewrite <- app_assoc.
  - by exists [].
Qed.

Lemma emits_weaken {A} (P Q : event → Prop) (m : M E A) :
  (∀ ev, P ev → Q ev) → emits P m → emits Q m.
Proof.
  intros HPQ Hm w. destruct (Hm w) as (t & Ht & HPt). exists t.
  split; [done|]. eapply Forall_impl; eauto.
Qed.

End MonadFacts.

Create HintDb emits discriminated.
#[global] Hint Resolve emits_ret emits_throw emits_call emits_console
  emits_now emits_bind emits_try_catch emits_Promise_all : emits.
Create HintDb yields discriminated.
#[global] Hint Resolve yields_ret yields_throw yields_bind yields_try_catch
  yields_Promise_all : yields.
#[global] Hint Extern 1 (of_signing _) => exact I : emits.

(** ** minio.service.ts *)

Section MinioFacts.
Context {E : Type} `{!Environment E} (cfg : obj).

Lemma getSignedUrl_no_name fileName (w : World E) :
  truthy fileName = false → getSignedUrl cfg fileName w = (Returned null, w).
Proof. intros Hf. unfold getSignedUrl. by rewrite Hf. Qed.

Lemma getSignedUrl_signed fileName (w : World E) signedUrl e' :
  truthy fileName = true →
  handle (Minio_presignedGetObject (bucketName cfg) fileName 604800) (ext w)
    = (Returned signedUrl, e') →
  getSignedUrl cfg fileName w
    = (Returned (Str signedUrl),
       mkWorld e' (trace w ++
         [Called (Minio_presignedGetObject (bucketName cfg) fileName 604800)])).
Proof.
  intros Hf Hsign. unfold getSignedUrl. rewrite Hf. simpl.
  apply try_catch_Returned.
  by rewrite (bind_Returned _ _ _ _ _ (call_handle _ _ _ _ Hsign)).
Qed.

Lemma getSignedUrl_failed fileName (w : World E) error e' :
  truthy fileName = true →
  handle (Minio_presignedGetObject (bucketName cfg) fileName 604800) (ext w)
    = (Thrown error, e') →
  getSignedUrl cfg fileName w
    = (Returned null,
       mkWorld e' (trace w ++
         [Called (Minio_presignedGetObject (bucketName cfg) fileName 604800);
          Console Err [Text "Ошибка при генерации подписанной ссылки:";
                       Text (message error)]])).
Proof.
  intros Hf Hsign. unfold getSignedUrl. rewrite Hf. simpl.
  rewrite (try_catch_Thrown _ _ _ error
             (mkWorld e' (trace w ++
                [Called (Minio_presignedGetObject (bucketName cfg) fileName 604800)]))).
  - unfold bind, console, ret. simpl. by rewrite <- app_assoc.
  - by rewrite (bind_Thrown _ _ _ _ _ (call_handle _ _ _ _ Hsign)).
Qed.

(** The signer swallows every failure of the client. *)
Lemma getSignedUrl_returns fileName (w : World E) :
  ∃ signedUrl w', getSignedUrl cfg fileName w = (Returned signedUrl, w').
Proof.
  destruct (truthy fileName) eqn:Hf.
  - destruct (handle (Minio_presignedGetObject (bucketName cfg) fileName 604800)
                (ext w)) as [[s|error] e'] eqn:Hsign.
    + eexists _, _. by apply getSignedUrl_signed.
    + eexists _, _. by apply getSignedUrl_failed.
  - eexists _, _. by apply getSignedUrl_no_name.
Qed.

Lemma emits_getSignedUrl fileName :
  emits of_signing (getSignedUrl cfg fileName).
Proof. unfold getSignedUrl. destruct (negb _); auto 10 with emits. Qed.

Lemma deleteFile_deleted fileName (w : World E) e' :
  handle (Minio_removeObject (bucketName cfg) fileName) (ext w)
    = (Returned tt, e') →
  deleteFile cfg fileName w
    = (Returned tt,
       mkWorld e' (trace w ++
         [Called (Minio_removeObject (bucketName cfg) fileName)])).
Proof.
  intros Hrm. unfold deleteFile. apply try_catch_Returned.
  exact (call_handle (Minio_removeObject _ _) _ _ _ Hrm).
Qed.

Lemma deleteFile_failed fileName (w : World E) error e' :
  handle (Minio_removeObject (bucketName cfg) fileName) (ext w)
    = (Thrown error, e') →
  deleteFile cfg fileName w
    = (Thrown error,
       mkWorld e' (trace w ++
         [Called (Minio_removeObject (bucketName cfg) fileName);
          Console Err [Text "Ошибка при удалении файла из MinIO:";
                       Text (message error)]])).
Proof.
  intros Hrm. unfold deleteFile.
  rewrite (try_catch_Thrown _ _ _ _ _
             (call_handle (Minio_removeObject _ _) _ _ _ Hrm)).
  unfold bind, console, throw. simpl. by rewrite <- app_assoc.
Qed.

End MinioFacts.

#[global] Hint Resolve emits_getSignedUrl : emits.

(** ** products.service.ts: the image block *)

Section ImageFacts.
Context {E : Type} `{!Environment E}.

Lemma split_nonempty sep s : split sep s ≠ [].
Proof.
  destruct s as [|c s]; simpl; [done|].
  destruct (Ascii.eqb c sep); [done|]. by destruct (split sep s).
Qed.

(** The two ways of reading the last segment agree: it is always there. *)
Lemma pop_at_length_minus_1 parts : pop parts = at_length_minus_1 parts.
Proof.
  unfold pop, at_length_minus_1. f_equal. rewrite last_lookup.
  f_equal. lia.
Qed.

Lemma pop_split_string sep s : ∃ name, pop (split sep s) = Str name.
Proof.
  unfold pop. destruct (last (split sep s)) as [name|] eqn:Hlast.
  - by exists name.
  - apply last_None in Hlast. by apply split_nonempty in Hlast.
Qed.

Lemma truthy_Str s : truthy (Str s) = true ↔ s ≠ "".
Proof.
  simpl. rewrite negb_true_iff. split.
  - intros Hs ->. by rewrite String.eqb_refl in Hs.
  - intros Hs. by apply String.eqb_neq.
Qed.

Lemma signImageUrl_untouched sign onError product (w : World E) :
  truthy (get product "imageUrl") = false →
  signImageUrl sign onError product w = (Returned product, w).
Proof. intros Hno. unfold signImageUrl. by rewrite Hno. Qed.

(** The block never throws on a product whose [imageUrl] is typed as the
    entity declares it, whatever the signer does; it leaves every other
    property alone; and the [imageUrl] it leaves is the signed one or
    none. *)
Lemma signImageUrl_spec sign onError product (w : World E) :
  image_typed product →
  (∀ error w1, ∃ w2, onError error w1 = (Returned tt, w2)) →
  ∃ r w',
    signImageUrl sign onError product w = (Returned r, w') ∧
    same_product product r ∧
    r !! "isDeleted" = product !! "isDeleted" ∧
    (truthy (get product "imageUrl") = false → r = product) ∧
    (∀ url, get product "imageUrl" = Str url → url ≠ "" →
       image_resolved sign (pop (split "/" url)) w r).
Proof.
  intros Htyped HonError. unfold signImageUrl.
  destruct (truthy (get product "imageUrl")) eqn:Himage.
  - destruct (Htyped Himage) as [url Hurl]. rewrite Hurl. simpl.
    unfold bind at 1, ret at 1. unfold try_catch, bind.
    assert (Hresolved : ∀ r,
      (match (sign (pop (split "/" url)) w).1 with
       | Returned signedUrl =>
           if truthy signedUrl then r !! "imageUrl" = Some signedUrl
           else r !! "imageUrl" = None
       | Thrown _ => r !! "imageUrl" = None
       end) →
      ∀ url', Str url = Str url' → url' ≠ "" →
        image_resolved sign (pop (split "/" url')) w r).
    { intros r Hr url' [= <-] _. exact Hr. }
    destruct (sign (pop (split "/" url)) w) as [[signedUrl|error] w1] eqn:Hsign;
      simpl in Hresolved.
    + destruct (truthy signedUrl) eqn:Hsigned; unfold ret.
      * eexists _, _. split; [done|]. split; [|split; [|split]].
        -- intros k Hk _. by rewrite lookup_insert_ne.
        -- by rewrite lookup_insert_ne.
        -- done.
        -- apply Hresolved. by rewrite lookup_insert_eq.
      * eexists _, _. split; [done|]. split; [|split; [|split]].
        -- intros k Hk _. by rewrite lookup_delete_ne.
        -- by rewrite lookup_delete_ne.
        -- done.
        -- apply Hresolved. by rewrite lookup_delete_eq.
    + destruct (HonError error w1) as [w2 Hw2]. rewrite Hw2. unfold ret.
      eexists _, _. split; [done|]. split; [|split; [|split]].
      * intros k Hk _. by rewrite lookup_delete_ne.
      * by rewrite lookup_delete_ne.
      * done.
      * apply Hresolved. by rewrite lookup_delete_eq.
  - eexists _, _. split; [done|]. split; [done|]. split; [done|].
    split; [done|]. intros url Hurl Hne.
    rewrite Hurl in Himage. apply truthy_Str in Hne. congruence.
Qed.

Lemma emits_signImageUrl P sign onError product :
  (∀ fileName, emits P (sign fileName)) →
  (∀ error, emits P (onError error)) →
  emits (E:=E) P (signImageUrl sign onError product).
Proof.
  intros Hsign HonError. unfold signImageUrl, split_slash.
  destruct (truthy _); [|auto with emits].
  apply emits_bind.
  - destruct (get product "imageUrl"); auto with emits.
  - intros parts. apply emits_try_catch.
    + apply emits_bind; [done|]. intros signedUrl.
      destruct (truthy signedUrl); auto with emits.
    + intros error. auto with emits.
Qed.

End ImageFacts.

#[global] Hint Resolve emits_signImageUrl : emits.

(** ** products.service.ts: lookups that find no live product *)

Section LookupFacts.
Context {E : Type} `{!Environment E} `{!StringNumericLiteral} (cfg : obj).

Lemma findById_absent id (w : World E) :
  (handle (Repo_findById id) (ext w)).1 = Returned None →
  findById cfg id w = (Thrown (notFound id), (call (Repo_findById id) w).2).
Proof.
  intros Hlookup. unfold findById, bind.
  destruct (call (Repo_findById id) w) as [o w1] eqn:Hcall.
  assert (o = Returned None) as -> by (by rewrite <- Hlookup, <- call_fst, Hcall).
  done.
Qed.

Lemma findById_deleted id product (w : World E) :
  (handle (Repo_findById id) (ext w)).1 = Returned (Some product) →
  truthy (get product "isDeleted") = true →
  findById cfg id w = (Thrown (notFound id), (call (Repo_findById id) w).2).
Proof.
  intros Hlookup Hdeleted. unfold findById, bind.
  destruct (call (Repo_findById id) w) as [o w1] eqn:Hcall.
  assert (o = Returned (Some product)) as ->
    by (by rewrite <- Hlookup, <- call_fst, Hcall).
  by rewrite Hdeleted.
Qed.

Lemma update_absent id patch (w : World E) :
  (handle (Repo_findById id) (ext w)).1 = Returned None →
  update cfg id patch w = (Thrown (notFound id), (call (Repo_findById id) w).2).
Proof.
  intros Hlookup. unfold update, bind.
  destruct (call (Repo_findById id) w) as [o w1] eqn:Hcall.
  assert (o = Returned None) as -> by (by rewrite <- Hlookup, <- call_fst, Hcall).
  done.
Qed.

Lemma update_deleted id patch product (w : World E) :
  (handle (Repo_findById id) (ext w)).1 = Returned (Some product) →
  truthy (get product "isDeleted") = true →
  update cfg id patch w
    = (Thrown (BadRequestException "Нельзя обновлять удалённый товар"),
       (call (Repo_findById id) w).2).
Proof.
  intros Hlookup Hdeleted. unfold update, bind.
  destruct (call (Repo_findById id) w) as [o w1] eqn:Hcall.
  assert (o = Returned (Some product)) as ->
    by (by rewrite <- Hlookup, <- call_fst, Hcall).
  by rewrite Hdeleted.
Qed.

Lemma remove_not_live id (w : World E) :
  not_live id (ext w) →
  remove id w = (Thrown (notFound id), (call (Repo_findById id) w).2).
Proof.
  intros Hnot. unfold remove, bind.
  destruct (call (Repo_findById id) w) as [o w1] eqn:Hcall.
  assert (Hfst : o = (handle (Repo_findById id) (ext w)).1)
    by (by rewrite <- call_fst, Hcall).
  destruct Hnot as [Habsent|(product & Hfound & Hdeleted)].
  - rewrite Habsent in Hfst. by subst o.
  - rewrite Hfound in Hfst. subst o. by rewrite Hdeleted.
Qed.

Lemma remove_Returned_inv id (w w1 : World E) :
  remove id w = (Returned tt, w1) →
  ∃ e0, handle (Repo_softDelete id) e0 = (Returned tt, ext w1).
Proof.
  unfold remove, bind.
  destruct (call (Repo_findById id) w) as [[[product|]|error] w0]; try done.
  destruct (truthy (get product "isDeleted")); [done|].
  unfold call.
  destruct (handle (Repo_softDelete id) (ext w0)) as [[[]|error] e1] eqn:Hdel;
    [|done].
  intros [= <-]. by exists (ext w0).
Qed.

Lemma uploadImage_not_live id file (w : World E) :
  not_live id (ext w) →
  uploadImage cfg id file w
    = (Thrown (notFound id), (call (Repo_findById id) w).2).
Proof.
  intros Hnot. unfold uploadImage, bind at 1.
  destruct (call (Repo_findById id) w) as [o w1] eqn:Hcall.
  assert (Hfst : o = (handle (Repo_findById id) (ext w)).1)
    by (by rewrite <- call_fst, Hcall).
  destruct Hnot as [Habsent|(product & Hfound & Hdeleted)].
  - rewrite Habsent in Hfst. by subst o.
  - rewrite Hfound in Hfst. subst o. by rewrite Hdeleted.
Qed.

(** C1 (amended).  When the repository has no record under [id], both
    [findById] and [update] fail with the NotFound exception.  When the
    record is soft-deleted, [findById] fails with the same NotFound
    exception, while [update] fails with the validation error "cannot
    update a deleted product" (a BadRequest), not with NotFound.  In all
    four cases nothing but the lookup has been done. *)
Theorem findById_update_without_live_product id patch (w : World E) :
  ((handle (Repo_findById id) (ext w)).1 = Returned None →
     findById cfg id w
       = (Thrown (notFound id), (call (Repo_findById id) w).2) ∧
     update cfg id patch w
       = (Thrown (notFound id), (call (Repo_findById id) w).2)) ∧
  (∀ product,
     (handle (Repo_findById id) (ext w)).1 = Returned (Some product) →
     truthy (get product "isDeleted") = true →
     findById cfg id w
       = (Thrown (notFound id), (call (Repo_findById id) w).2) ∧
     update cfg id patch w
       = (Thrown (BadRequestException "Нельзя обновлять удалённый товар"),
          (call (Repo_findById id) w).2) ∧
     fails_with Validation (update cfg id patch w)) ∧
  shape_of (notFound id) = NotFound.
Proof.
  split; [|split; [|done]].
  - intros Habsent. split; [by apply findById_absent|by apply update_absent].
  - intros product Hfound Hdeleted.
    split; [by eapply findById_deleted|].
    rewrite (update_deleted _ _ _ _ Hfound Hdeleted).
    split; [done|]. by eexists.
Qed.

(** C6.  [remove] fails with NotFound when the lookup finds nothing or a
    soft-deleted record, having made no call but the lookup, so that the
    state of the repository is the one it started from; hence, after a
    [remove] that succeeded, a second [remove] of the same id fails with
    NotFound and changes nothing.  The repository is assumed to keep its
    contract. *)
Theorem remove_NotFound_without_change id (w : World E) :
  RepositoryContract →
  (not_live id (ext w) →
     remove id w
       = (Thrown (notFound id),
          mkWorld (ext w) (trace w ++ [Called (Repo_findById id)]))) ∧
  (∀ w1, remove id w = (Returned tt, w1) →
     remove id w1
       = (Thrown (notFound id),
          mkWorld (ext w1) (trace w1 ++ [Called (Repo_findById id)]))).
Proof.
  intros [Hreads Hflags].
  assert (Hfail : ∀ w0 : World E, not_live id (ext w0) →
    remove id w0
      = (Thrown (notFound id),
         mkWorld (ext w0) (trace w0 ++ [Called (Repo_findById id)]))).
  { intros w0 Hnot. rewrite (remove_not_live _ _ Hnot), call_world.
    by rewrite Hreads. }
  split; [by apply Hfail|].
  intros w1 Hremoved. apply Hfail.
  destruct (remove_Returned_inv _ _ _ Hremoved) as [e0 Hdel].
  by eapply Hflags.
Qed.

End LookupFacts.

(** ** products.service.ts: what is handed to the repository, what is returned *)

Section ServiceFacts.
Context {E : Type} `{!Environment E} `{!StringNumericLiteral} (cfg : obj).

(** C2.  When the stock quantity of the input is exactly [0], the object
    [create] hands to the repository has [inStock = false], whatever the
    caller supplied, and is the input otherwise; when the stock quantity
    is anything else, or absent, the repository is handed the input as
    it is.  In both cases this is the only call made. *)
Theorem create_forces_inStock_false_on_zero_stock dto (w : World E) :
  (get dto "stockQuantity" = Num 0 →
     ∃ handed,
       trace (create dto w).2 = trace w ++ [Called (Repo_create handed)] ∧
       handed !! "inStock" = Some (Bool false) ∧
       ∀ k : string, k ≠ "inStock" → handed !! k = dto !! k) ∧
  (get dto "stockQuantity" ≠ Num 0 →
     trace (create dto w).2 = trace w ++ [Called (Repo_create dto)]).
Proof.
  assert (Htrace : ∀ handed,
    trace (bind (call (Repo_create handed))
             (λ product, ret (delete "isDeleted" product)) w).2
      = trace w ++ [Called (Repo_create handed)]).
  { intros handed. unfold bind, call, ret.
    by destruct (handle (Repo_create handed) (ext w)) as [[product|error] e']. }
  unfold create, withInStockOnZeroStock, strict_eq. split; intros Hstock.
  - rewrite bool_decide_eq_true_2 by done.
    exists (<["inStock" := Bool false]> dto). split; [apply Htrace|].
    split; [by rewrite lookup_insert_eq|].
    intros k Hk. by rewrite lookup_insert_ne.
  - rewrite bool_decide_eq_false_2 by done. apply Htrace.
Qed.

(** C3.  On a live product, [update] hands the repository a patch in
    which, whenever the caller's patch sets [stockQuantity], [inStock] is
    [stockQuantity > 0], true as well as false and whatever [inStock] the
    caller sent; a patch that does not set [stockQuantity] is handed over
    as it is.  It is the only update made. *)
Theorem update_recomputes_inStock id patch product e1 (w : World E) :
  live id product (ext w) e1 →
  ∃ handed rest,
    trace (update cfg id patch w).2
      = trace w ++ Called (Repo_findById id)
          :: Called (Repo_update id handed) :: rest ∧
    Forall of_signing rest ∧
    (get patch "stockQuantity" ≠ undefined →
       handed = <["inStock" := Bool (gt (get patch "stockQuantity") 0)]> patch) ∧
    (∀ n, get patch "stockQuantity" = Num n →
       handed !! "inStock" = Some (Bool (0 <? n))) ∧
    (get patch "stockQuantity" = undefined → handed = patch).
Proof.
  intros [Hlookup Hlive]. unfold update.
  rewrite (bind_Returned _ _ _ _ _ (call_handle (Repo_findById id) _ _ _ Hlookup)).
  rewrite Hlive.
  set (handed := withInStockFromStock patch).
  destruct (bind_call_trace of_signing (Repo_update id handed)
              (λ updatedProduct,
                 bind (signImageUrl (getSignedUrl cfg) (λ _, ret tt) updatedProduct)
                      (λ updatedProduct, ret (delete "isDeleted" updatedProduct)))
              (mkWorld e1 (trace w ++ [Called (Repo_findById id)])))
    as (rest & Hrest & Hsigning).
  { intros updatedProduct. auto 10 with emits. }
  exists handed, rest. split; [|split; [done|]].
  - rewrite Hrest. simpl. by rewrite <- app_assoc.
  - subst handed. unfold withInStockFromStock, strict_eq. split; [|split].
    + intros Hset. by rewrite bool_decide_eq_false_2.
    + intros n Hn. rewrite Hn. simpl. by rewrite lookup_insert_eq.
    + intros Hunset. by rewrite bool_decide_eq_true_2.
Qed.

Lemma yields_signed_and_stripped sign onError product :
  yields (E:=E) (λ r : obj, r !! "isDeleted" = None)
    (bind (signImageUrl sign onError product)
          (λ product, ret (delete "isDeleted" product))).
Proof.
  apply yields_bind. intros r. apply yields_ret. by rewrite lookup_delete_eq.
Qed.

Lemma yields_findAll filters :
  yields (Forall (λ r : obj, r !! "isDeleted" = None)) (findAll cfg filters).
Proof.
  unfold findAll. apply yields_bind. intros products.
  eapply yields_bind_of.
  - apply yields_Promise_all, Forall_map, Forall_forall.
    intros product _. apply yields_signed_and_stripped.
  - intros l Hl. by apply yields_ret.
Qed.

Lemma yields_findById id :
  yields (λ r : obj, r !! "isDeleted" = None) (findById cfg id).
Proof.
  unfold findById. apply yields_bind. intros [product|]; [|auto with yields].
  destruct (truthy _); [auto with yields|]. apply yields_signed_and_stripped.
Qed.

Lemma yields_create dto :
  yields (E:=E) (λ r : obj, r !! "isDeleted" = None) (create dto).
Proof.
  unfold create. apply yields_bind. intros product.
  apply yields_ret. simpl. by rewrite lookup_delete_eq.
Qed.

Lemma yields_update id patch :
  yields (λ r : obj, r !! "isDeleted" = None) (update cfg id patch).
Proof.
  unfold update. apply yields_bind. intros [product|]; [|auto with yields].
  destruct (truthy _); [auto with yields|]. apply yields_bind.
  intros updatedProduct. apply yields_signed_and_stripped.
Qed.

Lemma yields_uploadImage id file :
  yields (λ r : obj, r !! "isDeleted" = None) (uploadImage cfg id file).
Proof.
  unfold uploadImage. apply yields_bind. intros [product|]; [|auto with yields].
  destruct (truthy _); [auto with yields|].
  destruct file as [file|]; [|auto with yields].
  destruct (negb _); [auto with yields|]. apply yields_try_catch.
  - unfold replaceImage. do 3 (apply yields_bind; intros ?).
    apply yields_signed_and_stripped.
  - intros error. unfold uploadFailed. auto with yields.
Qed.

(** C4.  No product that leaves the service has an [isDeleted] property:
    not the items of [findAll], nor what [findById], [create], [update]
    and [uploadImage] return. *)
Theorem responses_without_isDeleted (w : World E) :
  (∀ filters products w',
     findAll cfg filters w = (Returned products, w') →
     Forall (λ r : obj, r !! "isDeleted" = None) products) ∧
  (∀ id r w',
     findById cfg id w = (Returned r, w') → r !! "isDeleted" = None) ∧
  (∀ dto r w',
     create dto w = (Returned r, w') → r !! "isDeleted" = None) ∧
  (∀ id patch r w',
     update cfg id patch w = (Returned r, w') → r !! "isDeleted" = None) ∧
  (∀ id file r w',
     uploadImage cfg id file w = (Returned r, w') → r !! "isDeleted" = None).
Proof.
  split; [|split; [|split; [|split]]].
  - intros filters products w'. apply yields_findAll.
  - intros id r w'. apply yields_findById.
  - intros dto r w'. apply yields_create.
  - intros id patch r w'. apply yields_update.
  - intros id file r w'. apply yields_uploadImage.
Qed.

End ServiceFacts.

(** ** Object keys and the URLs they are read from *)

Section KeyFacts.

Lemma append_nil_l (s : string) : "" +:+ s = s.
Proof. done. Qed.

Lemma append_cons c (a b : string) : String c a +:+ b = String c (a +:+ b).
Proof. done. Qed.

Lemma append_assoc (a b c : string) : (a +:+ b) +:+ c = a +:+ (b +:+ c).
Proof.
  induction a as [|x a IH]; [done|]. by rewrite !append_cons, IH.
Qed.

Lemma slashless_app (a b : string) :
  slashless (a +:+ b) = slashless a && slashless b.
Proof.
  induction a as [|c a IH]; [done|].
  rewrite append_cons. simpl. rewrite IH. by destruct (negb _).
Qed.

Lemma split_slashless s : slashless s = true → split "/" s = [s].
Proof.
  induction s as [|c s IH]; simpl; [done|].
  intros [Hc Hs]%andb_true_iff. apply negb_true_iff in Hc.
  by rewrite Hc, (IH Hs).
Qed.

Lemma split_app_slash (a b : string) :
  ∃ seg init, split "/" (a +:+ String "/" b) = seg :: init ++ split "/" b.
Proof.
  induction a as [|c a (seg & init & IH)].
  - by exists "", [].
  - rewrite append_cons. simpl. rewrite IH. destruct (Ascii.eqb c "/").
    + by exists "", (seg :: init).
    + by exists (String c seg), init.
Qed.

Lemma last_split_app_slash (a b : string) :
  slashless b = true → last (split "/" (a +:+ "/" +:+ b)) = Some b.
Proof.
  intros Hb. destruct (split_app_slash a b) as (seg & init & Hsplit).
  change ("/" +:+ b) with (String "/" b). rewrite Hsplit, (split_slashless b Hb).
  change (seg :: init ++ [b]) with ((seg :: init) ++ [b]). apply last_snoc.
Qed.

(** Every string is cut at its last slash, if it has one. *)
Lemma cut_at_last_slash (s : string) :
  slashless s = true ∨
  ∃ a b, s = a +:+ "/" +:+ b ∧ slashless b = true.
Proof.
  induction s as [|c s [Hs|(a & b & -> & Hb)]].
  - by left.
  - destruct (Ascii.eqb c "/") eqn:Hc.
    + right. apply Ascii.eqb_eq in Hc as ->. by exists "", s.
    + left. simpl. by rewrite Hc, Hs.
  - right. by exists (String c a), b.
Qed.

Lemma slashless_pretty_N_go x s :
  slashless s = true → slashless (pretty_N_go x s) = true.
Proof.
  revert s. induction (N.lt_wf_0 x) as [x _ IH]; intros s Hs.
  assert (x = 0 ∨ 0 < x)%N as [->|Hx] by lia.
  - by rewrite pretty_N_go_0.
  - rewrite pretty_N_go_step by done. apply IH; [by apply N.div_lt|].
    simpl. rewrite Hs. unfold pretty_N_char. by repeat case_match.
Qed.

Lemma slashless_pretty_N (x : N) : slashless (pretty x) = true.
Proof.
  unfold pretty, pretty_N. case_decide; [done|].
  by apply slashless_pretty_N_go.
Qed.

Lemma slashless_pretty (z : Z) : slashless (pretty z) = true.
Proof.
  destruct z as [|x|x]; [done|..].
  - apply (slashless_pretty_N (N.pos x)).
  - change (pretty (Z.neg x)) with ("-" +:+ pretty (N.pos x)).
    rewrite slashless_app. by rewrite slashless_pretty_N.
Qed.

Lemma slashless_objectKey productId millis :
  slashless (objectKey productId millis) = true.
Proof.
  unfold objectKey. by rewrite !slashless_app, !slashless_pretty.
Qed.

Lemma pop_key (a key : string) :
  slashless key = true →
  pop (split "/" (a +:+ "/" +:+ key)) = Str key ∧
  at_length_minus_1 (split "/" (a +:+ "/" +:+ key)) = Str key.
Proof.
  intros Hkey. rewrite <- pop_at_length_minus_1. unfold pop.
  by rewrite last_split_app_slash.
Qed.

(** The trailing path segment is what the services read from a URL, and
    every URL has one. *)
Lemma trailing_pop url key : trailing url key → pop (split "/" url) = Str key.
Proof.
  intros [Hkey [->|[before ->]]].
  - unfold pop. by rewrite (split_slashless key Hkey).
  - by destruct (pop_key before key Hkey).
Qed.

Lemma trailing_exists url : ∃ key, trailing url key.
Proof.
  destruct (cut_at_last_slash url) as [Hurl|(a & b & -> & Hb)].
  - exists url. split; [done|by left].
  - exists b. split; [done|]. right. by exists a.
Qed.

Lemma trailing_unique url key1 key2 :
  trailing url key1 → trailing url key2 → key1 = key2.
Proof.
  intros H1%trailing_pop H2%trailing_pop. congruence.
Qed.

(** X4.  However a URL is read for its object key, by [split('/').pop()]
    as before signing or by [urlParts[urlParts.length - 1]] as before
    deleting, the key is the same: always a string, without a slash, and
    what stands in the URL after its last slash (the whole URL when it has
    none). *)
Theorem one_key_for_signing_and_deleting (url : string) :
  ∃ key,
    pop (split "/" url) = Str key ∧
    at_length_minus_1 (split "/" url) = Str key ∧
    slashless key = true ∧
    (url = key ∨ ∃ before, url = before +:+ "/" +:+ key).
Proof.
  destruct (cut_at_last_slash url) as [Hurl|(a & b & -> & Hb)].
  - exists url. rewrite <- pop_at_length_minus_1. unfold pop.
    rewrite (split_slashless url Hurl). simpl. by repeat split; [..|left].
  - exists b. destruct (pop_key a b Hb) as [-> ->].
    repeat split; [done|]. right. by exists a.
Qed.

End KeyFacts.

(** ** products.service.ts: the image URL of what is returned *)

Section ResolutionFacts.
Context {E : Type} `{!Environment E} `{!StringNumericLiteral} (cfg : obj).

Lemma image_resolved_strip sign fileName (w : World E) r :
  image_resolved sign fileName w r →
  image_resolved sign fileName w (delete "isDeleted" r).
Proof.
  unfold image_resolved. rewrite lookup_delete_ne by done. auto.
Qed.

Lemma same_product_strip (p r : obj) :
  same_product p r → same_product p (delete "isDeleted" r).
Proof. intros Hsame k Hk1 Hk2. rewrite lookup_delete_ne by done. auto. Qed.

(** The end of every reading operation: the block, then the rest
    pattern that leaves [isDeleted] out. *)
Lemma signed_and_stripped_spec sign onError product (w : World E) :
  image_typed product →
  (∀ error w1, ∃ w2, onError error w1 = (Returned tt, w2)) →
  ∃ r w',
    bind (signImageUrl sign onError product)
         (λ product, ret (delete "isDeleted" product)) w = (Returned r, w') ∧
    same_product product r ∧
    (∀ url, get product "imageUrl" = Str url → url ≠ "" →
       image_resolved sign (pop (split "/" url)) w r).
Proof.
  intros Htyped HonError.
  destruct (signImageUrl_spec sign onError product w Htyped HonError)
    as (r & w' & Hrun & Hsame & _ & _ & Hresolved).
  exists (delete "isDeleted" r), w'.
  rewrite (bind_Returned _ _ _ _ _ Hrun). split; [done|].
  split; [by apply same_product_strip|].
  intros url Hurl Hne. by apply image_resolved_strip, Hresolved.
Qed.

Lemma image_typed_Str (product : obj) url :
  get product "imageUrl" = Str url → image_typed product.
Proof. intros Hurl _. by exists url. Qed.




Lemma deleteOldImage_returns imageUrl (w : World E) :
  ∃ w', deleteOldImage cfg imageUrl w = (Returned tt, w').
Proof.
  unfold deleteOldImage, try_catch.
  destruct (bind (split_slash imageUrl) _ w) as [[[]|error] w1].
  - by exists w1.
  - by eexists.
Qed.

Lemma uploadImage_live id product e1 file (w : World E) :
  live id product (ext w) e1 →
  startsWith (mimetype file) "image/" = true →
  uploadImage cfg id (Some file) w
    = try_catch (replaceImage cfg id product file) uploadFailed
        (mkWorld e1 (trace w ++ [Called (Repo_findById id)])).
Proof.
  intros [Hlookup Hlive] Himage. unfold uploadImage.
  rewrite (bind_Returned _ _ _ _ _ (call_handle (Repo_findById id) _ _ _ Hlookup)).
  by rewrite Hlive, Himage.
Qed.


(** The items of [findAll]. *)

Lemma warn_returns (error : exn) (w1 : World E) :
  ∃ w2, console Warn [Text "Не удалось получить ссылку для файла:";
                      Value error] w1 = (Returned tt, w2).
Proof. by eexists. Qed.

Lemma withSignedUrl_spec product (w : World E) :
  image_typed product →
  ∃ r w',
    withSignedUrl cfg product w = (Returned r, w') ∧
    same_product product r ∧
    (∀ url key, get product "imageUrl" = Str url → url ≠ "" →
       trailing url key → image_resolved (getSignedUrl cfg) (Str key) w r).
Proof.
  intros Htyped. unfold withSignedUrl.
  destruct (signed_and_stripped_spec (getSignedUrl cfg)
              (λ error, console Warn [Text "Не удалось получить ссылку для файла:";
                                      Value error])
              product w Htyped warn_returns)
    as (r & w' & Hrun & Hsame & Hresolved).
  exists r, w'. split; [done|]. split; [done|].
  intros url key Hurl Hne <-%trailing_pop. by apply Hresolved.
Qed.

Lemma yields_withSignedUrl product :
  yields (same_product product) (withSignedUrl cfg product).
Proof.
  unfold withSignedUrl, signImageUrl. apply yields_bind_of with (same_product product).
  - destruct (truthy _); [|by apply yields_ret].
    apply yields_bind. intros parts. apply yields_try_catch.
    + apply yields_bind. intros signedUrl. destruct (truthy signedUrl).
      * apply yields_ret. intros k Hk _. by rewrite lookup_insert_ne.
      * apply yields_ret. intros k Hk _. by rewrite lookup_delete_ne.
    + intros error. apply yields_bind. intros _.
      apply yields_ret. intros k Hk _. by rewrite lookup_delete_ne.
  - intros r Hr. by apply yields_ret, same_product_strip.
Qed.

Lemma settle_all_withSignedUrl products (w : World E) :
  Forall image_typed products →
  ∃ rs w',
    settle_all (map (withSignedUrl cfg) products) w = (Returned <$> rs, w') ∧
    in_turn (withSignedUrl cfg)
      (λ p w1 r,
         ∀ url key, get p "imageUrl" = Str url → url ≠ "" → trailing url key →
           image_resolved (getSignedUrl cfg) (Str key) w1 r)
      products rs w.
Proof.
  intros Htyped. revert w.
  induction Htyped as [|product products Hproduct _ IH]; intros w; simpl.
  - by exists [], w.
  - destruct (withSignedUrl_spec product w Hproduct)
      as (r & w1 & Hitem & _ & Hresolved).
    rewrite Hitem. destruct (IH w1) as (rs & w' & -> & Hrs).
    exists (r :: rs), w'. split; [done|].
    split; [exact Hresolved|exact Hrs].
Qed.

Lemma all_fulfilled_Returned {A} (l : list A) :
  all_fulfilled (Returned <$> l) = Returned l.
Proof. induction l as [|a l IH]; csimpl; [done|]. by rewrite IH. Qed.

Lemma settle_all_same_product products (w : World E) rs :
  all_fulfilled (settle_all (map (withSignedUrl cfg) products) w).1
    = Returned rs →
  Forall2 same_product products rs.
Proof.
  revert w rs. induction products as [|product products IH]; intros w rs; simpl.
  - intros [= <-]. constructor.
  - destruct (withSignedUrl cfg product w) as [o w1] eqn:Hitem.
    specialize (IH w1).
    destruct (settle_all (map (withSignedUrl cfg) products) w1) as [os w2].
    simpl in *. destruct o as [r|error]; [|done].
    destruct (all_fulfilled os) as [rs'|error]; [|done].
    intros [= <-]. constructor; [|by apply IH].
    by eapply yields_withSignedUrl.
Qed.

Lemma findAll_run filters products e1 (w : World E) :
  handle (Repo_findAll (withDefaultIncludeDeleted filters)) (ext w)
    = (Returned products, e1) →
  findAll cfg filters w
    = let (os, w') :=
        settle_all (map (withSignedUrl cfg) products)
          (mkWorld e1 (trace w ++
             [Called (Repo_findAll (withDefaultIncludeDeleted filters))])) in
      (all_fulfilled os, w').
Proof.
  intros Hquery. unfold findAll.
  rewrite (bind_Returned _ _ _ _ _ (call_handle (Repo_findAll _) _ _ _ Hquery)).
  unfold bind, Promise_all, ret.
  destruct (settle_all _ _) as [os w']. by destruct (all_fulfilled os).
Qed.


(** C7.  [findAll] queries the repository once.  When the caller's
    filters do not say [includeDeleted], the query says
    [includeDeleted = false] and is the caller's otherwise; when they do,
    the query is the caller's.  The list returned has the length of the
    repository's list and its i-th item is the repository's i-th product
    (up to [imageUrl] and [isDeleted]); and a list is returned whenever
    the products are typed as the entity declares them. *)
Theorem findAll_default_and_order filters (w : World E) :
  (∃ rest,
     trace (findAll cfg filters w).2
       = trace w ++ Called (Repo_findAll (withDefaultIncludeDeleted filters))
           :: rest ∧
     Forall of_signing rest) ∧
  (get filters "includeDeleted" = undefined →
     withDefaultIncludeDeleted filters !! "includeDeleted" = Some (Bool false) ∧
     ∀ k : string, k ≠ "includeDeleted" →
       withDefaultIncludeDeleted filters !! k = filters !! k) ∧
  (get filters "includeDeleted" ≠ undefined →
     withDefaultIncludeDeleted filters = filters) ∧
  (∀ products e1,
     handle (Repo_findAll (withDefaultIncludeDeleted filters)) (ext w)
       = (Returned products, e1) →
     (∀ rs w', findAll cfg filters w = (Returned rs, w') →
        length rs = length products ∧
        ∀ i p r, products !! i = Some p → rs !! i = Some r → same_product p r) ∧
     (Forall image_typed products →
        ∃ rs w', findAll cfg filters w = (Returned rs, w'))).
Proof.
  split; [|split; [|split]].
  - unfold findAll. apply bind_call_trace. intros products.
    apply emits_bind; [|auto with emits].
    apply emits_Promise_all, Forall_map, Forall_forall.
    intros product _. unfold withSignedUrl. auto 10 with emits.
  - intros Hunset. unfold withDefaultIncludeDeleted, strict_eq.
    rewrite bool_decide_eq_true_2 by done.
    split; [by rewrite lookup_insert_eq|].
    intros k Hk. by rewrite lookup_insert_ne.
  - intros Hset. unfold withDefaultIncludeDeleted, strict_eq.
    by rewrite bool_decide_eq_false_2.
  - intros products e1 Hquery. rewrite (findAll_run _ _ _ _ Hquery). split.
    + intros rs w' Hrun.
      assert (Hsame : Forall2 same_product products rs).
      { apply (settle_all_same_product products
                 (mkWorld e1 (trace w ++
                    [Called (Repo_findAll (withDefaultIncludeDeleted filters))]))).
        destruct (settle_all _ _) as [os w1]. simpl. congruence. }
      split; [symmetry; by eapply Forall2_length|].
      intros i p r Hp Hr. by eapply Forall2_lookup_lr.
    + intros Htyped.
      destruct (settle_all_withSignedUrl products
                  (mkWorld e1 (trace w ++
                     [Called (Repo_findAll (withDefaultIncludeDeleted filters))]))
                  Htyped) as (rs & w' & -> & _).
      exists rs, w'. by rewrite all_fulfilled_Returned.
Qed.

End ResolutionFacts.

(** ** Uploading an image *)

Section UploadFacts.
Context {E : Type} `{!Environment E} `{!StringNumericLiteral} (cfg : obj).

Lemma uploadProductImage_run file productId (w : World E) :
  let key := "product-" +:+ pretty productId +:+ "-"
               +:+ pretty (Date_now (ext w)) +:+ ".jpg" in
  let put := Minio_putObject (get cfg "MINIO_BUCKET") key file (length file)
               {[ "Content-Type" := Str "image/jpeg" ]} in
  uploadProductImage cfg file productId w
    = (match (handle put (ext w)).1 with
       | Returned _ =>
           Returned
             ((if bool_decide (get cfg "MINIO_USE_SSL" = Str "true")
               then "https" else "http")
                +:+ "://" +:+ ToString (get cfg "MINIO_ENDPOINT")
                +:+ ":" +:+ ToString (get cfg "MINIO_PORT")
                +:+ "/" +:+ ToString (get cfg "MINIO_BUCKET")
                +:+ "/" +:+ key)
       | Thrown error => Thrown error
       end,
       mkWorld (handle put (ext w)).2 (trace w ++ [Called put])).
Proof.
  intros key put. unfold uploadProductImage, bind, now, call, ret.
  unfold bucketName, strict_eq.
  change (ToString (Num productId)) with (pretty productId).
  change (ToString (Num (Date_now (ext w)))) with (pretty (Date_now (ext w))).
  fold key. fold put.
  by destruct (handle put (ext w)) as [[[]|error] e'].
Qed.

(** C9.  [uploadProductImage] makes one call, a [putObject] of the bytes
    under the key product-<productId>-<milliseconds of the clock>.jpg
    with the header Content-Type: image/jpeg, whatever the bytes are.
    When the call succeeds, the URL returned is
    <scheme>://<endpoint>:<port>/<bucket>/<key>, put together from the
    configuration, the scheme being https exactly when MINIO_USE_SSL is
    the string 'true'; when it fails, its error is the caller's. *)
Theorem uploadProductImage_key_and_url file productId (w : World E) :
  let key := "product-" +:+ pretty productId +:+ "-"
               +:+ pretty (Date_now (ext w)) +:+ ".jpg" in
  let put := Minio_putObject (get cfg "MINIO_BUCKET") key file (length file)
               {[ "Content-Type" := Str "image/jpeg" ]} in
  ∃ scheme,
    (scheme = "https" ∧ get cfg "MINIO_USE_SSL" = Str "true" ∨
     scheme = "http" ∧ get cfg "MINIO_USE_SSL" ≠ Str "true") ∧
    (uploadProductImage cfg file productId w).2
      = mkWorld (handle put (ext w)).2 (trace w ++ [Called put]) ∧
    (uploadProductImage cfg file productId w).1
      = match (handle put (ext w)).1 with
        | Returned _ =>
            Returned (scheme +:+ "://" +:+ ToString (get cfg "MINIO_ENDPOINT")
                        +:+ ":" +:+ ToString (get cfg "MINIO_PORT")
                        +:+ "/" +:+ ToString (get cfg "MINIO_BUCKET")
                        +:+ "/" +:+ key)
        | Thrown error => Thrown error
        end.
Proof.
  intros key put. rewrite uploadProductImage_run. fold key. fold put.
  exists (if bool_decide (get cfg "MINIO_USE_SSL" = Str "true")
          then "https" else "http").
  split; [|done]. case_bool_decide; auto.
Qed.

Lemma uploadFailed_run error (w : World E) :
  uploadFailed error w
    = (Thrown (InternalServerErrorException "Не удалось загрузить изображение"),
       mkWorld (ext w)
         (trace w ++ [Console Err [Text "Ошибка при загрузке изображения:";
                                   Value error]])).
Proof. done. Qed.

(** C10.  In [uploadImage] the lookup and the checks of the file come
    before the [try]: a product that is absent or soft-deleted gives the
    NotFound exception, a missing file and a file that is not an image
    give their BadRequest exceptions, and an error of the lookup itself
    goes to the caller as it is.  Only when all the checks have passed
    does the [try] begin; what it returns is returned, and whatever it
    throws is replaced by the one InternalServerError exception. *)
Theorem uploadImage_checks_before_try id file (w : World E) :
  (not_live id (ext w) →
     uploadImage cfg id file w
       = (Thrown (notFound id), (call (Repo_findById id) w).2)) ∧
  (∀ error e1,
     handle (Repo_findById id) (ext w) = (Thrown error, e1) →
     uploadImage cfg id file w
       = (Thrown error, mkWorld e1 (trace w ++ [Called (Repo_findById id)]))) ∧
  (∀ product e1,
     live id product (ext w) e1 →
     let w1 := mkWorld e1 (trace w ++ [Called (Repo_findById id)]) in
     (file = None →
        uploadImage cfg id file w
          = (Thrown (BadRequestException "Файл не предоставлен"), w1)) ∧
     (∀ f, file = Some f → startsWith (mimetype f) "image/" = false →
        uploadImage cfg id file w
          = (Thrown (BadRequestException "Файл должен быть изображением"),
             w1)) ∧
     (∀ f, file = Some f → startsWith (mimetype f) "image/" = true →
        (∀ r w2, replaceImage cfg id product f w1 = (Returned r, w2) →
           uploadImage cfg id file w = (Returned r, w2)) ∧
        (∀ error w2, replaceImage cfg id product f w1 = (Thrown error, w2) →
           uploadImage cfg id file w
             = (Thrown (InternalServerErrorException
                          "Не удалось загрузить изображение"),
                mkWorld (ext w2)
                  (trace w2 ++
                     [Console Err [Text "Ошибка при загрузке изображения:";
                                   Value error]]))))).
Proof.
  split; [by apply uploadImage_not_live|]. split.
  - intros error e1 Hlookup. unfold uploadImage.
    by rewrite (bind_Thrown _ _ _ _ _
                  (call_handle (Repo_findById id) _ _ _ Hlookup)).
  - intros product e1 Hlive w1. split; [|split].
    + intros ->. destruct Hlive as [Hlookup Hlive]. unfold uploadImage.
      rewrite (bind_Returned _ _ _ _ _
                 (call_handle (Repo_findById id) _ _ _ Hlookup)).
      by rewrite Hlive.
    + intros f -> Hmime. destruct Hlive as [Hlookup Hlive]. unfold uploadImage.
      rewrite (bind_Returned _ _ _ _ _
                 (call_handle (Repo_findById id) _ _ _ Hlookup)).
      by rewrite Hlive, Hmime.
    + intros f -> Hmime.
      rewrite (uploadImage_live cfg _ _ _ _ _ Hlive Hmime). fold w1. split.
      * intros r w2 Hrun. by apply try_catch_Returned.
      * intros error w2 Hrun.
        by rewrite (try_catch_Thrown _ _ _ _ _ Hrun), uploadFailed_run.
Qed.

Lemma deleteOldImage_failed url error e' (w : World E) :
  handle (Minio_removeObject (bucketName cfg) (at_length_minus_1 (split "/" url)))
    (ext w) = (Thrown error, e') →
  deleteOldImage cfg (Str url) w
    = (Returned tt,
       mkWorld e'
         (trace w ++
            [Called (Minio_removeObject (bucketName cfg)
                       (at_length_minus_1 (split "/" url)));
             Console Err [Text "Ошибка при удалении файла из MinIO:";
                          Text (message error)];
             Console Warn [Text "Не удалось удалить старое изображение:";
                           Text (message error)]])).
Proof.
  intros Hremove. unfold deleteOldImage. simpl.
  rewrite (try_catch_Thrown _ _ _ error
             (mkWorld e'
                (trace w ++
                   [Called (Minio_removeObject (bucketName cfg)
                              (at_length_minus_1 (split "/" url)));
                    Console Err [Text "Ошибка при удалении файла из MinIO:";
                                 Text (message error)]]))).
  - unfold console. simpl. by rewrite <- app_assoc.
  - unfold bind at 1, ret at 1. by apply deleteFile_failed.
Qed.

Lemma try_catch_uploadFailed_trace (m : M E obj) (w : World E) :
  ∃ t, trace (try_catch m uploadFailed w).2 = trace (m w).2 ++ t.
Proof.
  unfold try_catch. destruct (m w) as [[r|error] w1]; simpl.
  - exists []. by rewrite app_nil_r.
  - by eexists.
Qed.

(** C8.  [deleteFile] hands an error of the store on to its caller, after
    logging it; [deleteOldImage] catches it, logs a warning and returns;
    so, when the product has an image, [uploadImage] goes on with the
    upload of the new object whatever became of the old one, and, when
    that upload succeeds, with the update that records the new URL. *)
Theorem old_image_failure_never_blocks_upload (w : World E) :
  (∀ fileName error e',
     handle (Minio_removeObject (bucketName cfg) fileName) (ext w)
       = (Thrown error, e') →
     deleteFile cfg fileName w
       = (Thrown error,
          mkWorld e'
            (trace w ++
               [Called (Minio_removeObject (bucketName cfg) fileName);
                Console Err [Text "Ошибка при удалении файла из MinIO:";
                             Text (message error)]]))) ∧
  (∀ url error e',
     handle (Minio_removeObject (bucketName cfg)
               (at_length_minus_1 (split "/" url))) (ext w)
       = (Thrown error, e') →
     deleteOldImage cfg (Str url) w
       = (Returned tt,
          mkWorld e'
            (trace w ++
               [Called (Minio_removeObject (bucketName cfg)
                          (at_length_minus_1 (split "/" url)));
                Console Err [Text "Ошибка при удалении файла из MinIO:";
                             Text (message error)];
                Console Warn [Text "Не удалось удалить старое изображение:";
                              Text (message error)]]))) ∧
  (∀ imageUrl, ∃ w', deleteOldImage cfg imageUrl w = (Returned tt, w')) ∧
  (∀ id product e1 file,
     live id product (ext w) e1 →
     truthy (get product "imageUrl") = true →
     startsWith (mimetype file) "image/" = true →
     ∃ w2 rest,
       deleteOldImage cfg (get product "imageUrl")
         (mkWorld e1 (trace w ++ [Called (Repo_findById id)]))
         = (Returned tt, w2) ∧
       let key := "product-" +:+ pretty id +:+ "-"
                    +:+ pretty (Date_now (ext w2)) +:+ ".jpg" in
       let put := Minio_putObject (get cfg "MINIO_BUCKET") key (buffer file)
                    (length (buffer file))
                    {[ "Content-Type" := Str "image/jpeg" ]} in
       trace (uploadImage cfg id (Some file) w).2
         = trace w2 ++ Called put :: rest ∧
       (∀ e3, handle put (ext w2) = (Returned tt, e3) →
          ∃ imageUrl rest',
            rest = Called (Repo_update id {[ "imageUrl" := Str imageUrl ]})
                     :: rest')).
Proof.
  split; [|split; [|split]].
  - intros fileName error e'. apply deleteFile_failed.
  - intros url error e'. apply deleteOldImage_failed.
  - intros imageUrl. apply deleteOldImage_returns.
  - intros id product e1 file Hlive Himage Hmime.
    destruct (deleteOldImage_returns cfg (get product "imageUrl")
                (mkWorld e1 (trace w ++ [Called (Repo_findById id)])))
      as [w2 Hdelete].
    exists w2. rewrite (uploadImage_live cfg _ _ _ _ _ Hlive Hmime).
    set (w1 := mkWorld e1 (trace w ++ [Called (Repo_findById id)])) in *.
    destruct (try_catch_uploadFailed_trace
                (replaceImage cfg id product file) w1) as [t ->].
    unfold replaceImage. rewrite Himage.
    rewrite (bind_Returned _ _ _ _ _ Hdelete).
    unfold bind at 1. rewrite uploadProductImage_run.
    set (key := "product-" +:+ pretty id +:+ "-"
                  +:+ pretty (Date_now (ext w2)) +:+ ".jpg").
    set (put := Minio_putObject (get cfg "MINIO_BUCKET") key (buffer file)
                  (length (buffer file)) {[ "Content-Type" := Str "image/jpeg" ]}).
    destruct (handle put (ext w2)) as [[[]|error] e3] eqn:Hput; simpl.
    + set (imageUrl := (if bool_decide _ then _ else _) +:+ _).
      destruct (bind_call_trace (λ _, True)
                  (Repo_update id {[ "imageUrl" := Str imageUrl ]})
                  (λ updatedProduct,
                     bind (signImageUrl (getSignedUrl cfg) (λ _, ret tt)
                             updatedProduct)
                          (λ updatedProduct,
                             ret (delete "isDeleted" updatedProduct)))
                  (mkWorld e3 (trace w2 ++ [Called put])))
        as (rest & Hrest & _).
      { intros updatedProduct. apply (emits_weaken of_signing); [done|].
        auto 10 with emits. }
      exists (Called (Repo_update id {[ "imageUrl" := Str imageUrl ]})
               :: rest ++ t).
      split; [done|]. split.
      * etrans; [exact (f_equal (λ l, l ++ t) Hrest)|].
        simpl. by rewrite <- !app_assoc.
      * intros e3' _. by exists imageUrl, (rest ++ t).
    + exists t. split; [done|]. split; [by rewrite <- app_assoc|].
      intros e3' [=].
Qed.

End UploadFacts.

(** * The reference environment at work *)

Section InMemoryFacts.
Import InMemory.

Lemma has_id_flagged id (row : obj) :
  has_id id (<["isDeleted" := Bool true]> row) = has_id id row.
Proof. unfold has_id, get. by rewrite lookup_insert_ne. Qed.

Lemma find_after_softDelete id (rs : list obj) :
  match List.find (has_id id)
          (map (λ row, if has_id id row
                       then <["isDeleted" := Bool true]> row else row) rs) with
  | Some product => truthy (get product "isDeleted") = true
  | None => True
  end.
Proof.
  induction rs as [|row rs IH]; simpl; [done|].
  destruct (has_id id row) eqn:Hrow.
  - rewrite has_id_flagged, Hrow. unfold get. by rewrite lookup_insert_eq.
  - by rewrite Hrow.
Qed.

(** The reference repository keeps the contract. *)
Lemma in_memory_contract : RepositoryContract (E:=state).
Proof.
  split.
  - intros id e. simpl. unfold database. by destruct (connected e).
  - intros id e e'. unfold not_live. simpl. unfold database.
    destruct (connected e) eqn:Hdb; [|done]. intros [= <-]. simpl. rewrite Hdb.
    unfold repo_findById. simpl.
    pose proof (find_after_softDelete id (rows e)) as Hfind.
    destruct (List.find _ _) as [product|]; [right|left; done].
    by exists product.
Qed.

(** What a computation that returned is made of. *)
Lemma returned_eq {A} (d : A) (r : outcome A * World state) :
  has_returned r.1 = true → r = (Returned (value d r.1), r.2).
Proof. by destruct r as [[a|error] w]. Qed.

Lemma gizmo_is_not_live : not_live 3 (ext (start true)).
Proof. right. exists gizmo. split; compute_done. Qed.

Lemma gadget_is_live : live 2 gadget (ext (start true)) (catalogue true).
Proof. split; compute_done. Qed.

Lemma widget_is_live up : live 1 widget (ext (start up)) (catalogue up).
Proof. destruct up; split; compute_done. Qed.

(** C1, as stated, fails: the gizmo is soft-deleted (the lookup finds it,
    flagged), yet [update] on its id ends in the BadRequest exception,
    whose shape is not NotFound. *)
Lemma update_of_soft_deleted_is_not_NotFound :
  (handle (Repo_findById 3) (catalogue true)).1 = Returned (Some gizmo) ∧
  truthy (get gizmo "isDeleted") = true ∧
  (update config 3 ∅ (start true)).1
    = Thrown (BadRequestException "Нельзя обновлять удалённый товар") ∧
  ¬ fails_with NotFound (update config 3 ∅ (start true)).
Proof.
  assert (Hthrown : (update config 3 ∅ (start true)).1
            = Thrown (BadRequestException "Нельзя обновлять удалённый товар"))
    by compute_done.
  split; [compute_done|]. split; [compute_done|]. split; [done|].
  intros (error & Herror & Hshape). rewrite Hthrown in Herror.
  injection Herror as <-. discriminate Hshape.
Qed.

Lemma findById_update_without_live_product_witness :
  ((handle (Repo_findById 9) (ext (start true))).1 = Returned None ∧
   findById config 9 (start true)
     = (Thrown (notFound 9), (call (Repo_findById 9) (start true)).2) ∧
   update config 9 ∅ (start true)
     = (Thrown (notFound 9), (call (Repo_findById 9) (start true)).2)) ∧
  ((handle (Repo_findById 3) (ext (start true))).1 = Returned (Some gizmo) ∧
   truthy (get gizmo "isDeleted") = true ∧
   findById config 3 (start true)
     = (Thrown (notFound 3), (call (Repo_findById 3) (start true)).2) ∧
   fails_with Validation (update config 3 ∅ (start true))).
Proof.
  assert (H9 : (handle (Repo_findById 9) (ext (start true))).1 = Returned None)
    by compute_done.
  assert (H3 : (handle (Repo_findById 3) (ext (start true))).1
               = Returned (Some gizmo)) by compute_done.
  assert (Hflag : truthy (get gizmo "isDeleted") = true) by compute_done.
  destruct (findById_update_without_live_product config 9 ∅ (start true))
    as (Habsent & _ & _).
  destruct (findById_update_without_live_product config 3 ∅ (start true))
    as (_ & Hdeleted & _).
  destruct (Habsent H9) as [Hfind Hupdate].
  destruct (Hdeleted gizmo H3 Hflag) as (Hfind' & _ & Hvalidation).
  exact (conj (conj H9 (conj Hfind Hupdate))
              (conj H3 (conj Hflag (conj Hfind' Hvalidation)))).
Defined.

Lemma remove_NotFound_without_change_witness :
  (not_live 3 (ext (start true)) ∧
   remove 3 (start true)
     = (Thrown (notFound 3),
        mkWorld (ext (start true))
          (trace (start true) ++ [Called (Repo_findById 3)]))) ∧
  (remove 1 (start true) = (Returned tt, (remove 1 (start true)).2) ∧
   remove 1 (remove 1 (start true)).2
     = (Thrown (notFound 1),
        mkWorld (ext (remove 1 (start true)).2)
          (trace (remove 1 (start true)).2 ++ [Called (Repo_findById 1)]))).
Proof.
  assert (Hremoved : remove 1 (start true)
                     = (Returned tt, (remove 1 (start true)).2))
    by compute_done.
  split; (split; [first [exact gizmo_is_not_live|exact Hremoved]|]).
  - exact (proj1 (remove_NotFound_without_change 3 (start true)
                    in_memory_contract) gizmo_is_not_live).
  - exact (proj2 (remove_NotFound_without_change 1 (start true)
                    in_memory_contract) _ Hremoved).
Defined.

Lemma create_forces_inStock_false_on_zero_stock_witness :
  (get newWidget "stockQuantity" = Num 0 ∧
   ∃ handed,
     trace (create newWidget (start true)).2
       = trace (start true) ++ [Called (Repo_create handed)] ∧
     handed !! "inStock" = Some (Bool false) ∧
     ∀ k : string, k ≠ "inStock" → handed !! k = newWidget !! k) ∧
  (get newGadget "stockQuantity" ≠ Num 0 ∧
   trace (create newGadget (start true)).2
     = trace (start true) ++ [Called (Repo_create newGadget)]).
Proof.
  assert (Hzero : get newWidget "stockQuantity" = Num 0) by compute_done.
  assert (Hfour : get newGadget "stockQuantity" ≠ Num 0) by compute_done.
  split; (split; [assumption|]).
  - exact (proj1 (create_forces_inStock_false_on_zero_stock newWidget
                    (start true)) Hzero).
  - exact (proj2 (create_forces_inStock_false_on_zero_stock newGadget
                    (start true)) Hfour).
Defined.

Lemma update_recomputes_inStock_witness :
  live 2 gadget (ext (start true)) (catalogue true) ∧
  ∃ handed rest,
    trace (update config 2 restock (start true)).2
      = trace (start true) ++ Called (Repo_findById 2)
          :: Called (Repo_update 2 handed) :: rest ∧
    Forall of_signing rest ∧
    (get restock "stockQuantity" ≠ undefined →
       handed = <["inStock" := Bool (gt (get restock "stockQuantity") 0)]> restock) ∧
    (∀ n, get restock "stockQuantity" = Num n →
       handed !! "inStock" = Some (Bool (0 <? n))) ∧
    (get restock "stockQuantity" = undefined → handed = restock).
Proof.
  split; [exact gadget_is_live|].
  exact (update_recomputes_inStock config 2 restock gadget (catalogue true)
           (start true) gadget_is_live).
Defined.

Lemma responses_without_isDeleted_witness :
  Forall (λ r : obj, r !! "isDeleted" = None)
    (value [] (findAll config ∅ (start true)).1) ∧
  value ∅ (findById config 1 (start true)).1 !! "isDeleted" = None ∧
  value ∅ (create newWidget (start true)).1 !! "isDeleted" = None ∧
  value ∅ (update config 2 restock (start true)).1 !! "isDeleted" = None ∧
  value ∅ (uploadImage config 1 (Some jpeg) (start true)).1 !! "isDeleted" = None.
Proof.
  destruct (responses_without_isDeleted config (start true))
    as (HfindAll & HfindById & Hcreate & Hupdate & HuploadImage).
  split; [|split; [|split; [|split]]].
  - eapply (HfindAll ∅), (returned_eq []). compute_done.
  - eapply (HfindById 1), (returned_eq ∅). compute_done.
  - eapply (Hcreate newWidget), (returned_eq ∅). compute_done.
  - eapply (Hupdate 2 restock), (returned_eq ∅). compute_done.
  - eapply (HuploadImage 1 (Some jpeg)), (returned_eq ∅). compute_done.
Defined.

Lemma catalogue_images_typed : Forall image_typed [widget; gadget].
Proof.
  repeat constructor.
  - apply (image_typed_Str _ widgetUrl). compute_done.
  - intros Himage. assert (truthy (get gadget "imageUrl") = false) by compute_done.
    congruence.
Qed.





Lemma answered_eq (r : outcome unit * state) :
  has_returned r.1 = true → r = (Returned tt, r.2).
Proof. by destruct r as [[[]|error] e]. Qed.

Lemma findAll_default_and_order_witness :
  (get (∅ : obj) "includeDeleted" = undefined ∧
   withDefaultIncludeDeleted ∅ !! "includeDeleted" = Some (Bool false)) ∧
  (get withDeleted "includeDeleted" ≠ undefined ∧
   withDefaultIncludeDeleted withDeleted = withDeleted) ∧
  (handle (Repo_findAll (withDefaultIncludeDeleted ∅)) (ext (start true))
     = (Returned [widget; gadget], catalogue true) ∧
   length (value [] (findAll config ∅ (start true)).1) = length [widget; gadget] ∧
   ∃ rs w', findAll config ∅ (start true) = (Returned rs, w')).
Proof.
  destruct (findAll_default_and_order config ∅ (start true))
    as (_ & Hdefault & _ & Hitems).
  destruct (findAll_default_and_order config withDeleted (start true))
    as (_ & _ & Hkept & _).
  assert (Hunset : get (∅ : obj) "includeDeleted" = undefined) by compute_done.
  assert (Hset : get withDeleted "includeDeleted" ≠ undefined) by compute_done.
  assert (Hquery : handle (Repo_findAll (withDefaultIncludeDeleted ∅))
                     (ext (start true))
                   = (Returned [widget; gadget], catalogue true))
    by compute_done.
  destruct (Hitems [widget; gadget] (catalogue true) Hquery)
    as [Horder Hreturns].
  split; [exact (conj Hunset (proj1 (Hdefault Hunset)))|].
  split; [exact (conj Hset (Hkept Hset))|].
  split; [exact Hquery|]. split.
  - eapply Horder, (returned_eq []). compute_done.
  - exact (Hreturns catalogue_images_typed).
Defined.

Lemma old_image_failure_never_blocks_upload_witness :
  deleteFile config (Str "product-1-1700000000000.jpg") locked
    = (Thrown (Error "Object is WORM protected"),
       mkWorld (ext locked)
         (trace locked ++
            [Called (Minio_removeObject (bucketName config)
                       (Str "product-1-1700000000000.jpg"));
             Console Err [Text "Ошибка при удалении файла из MinIO:";
                          Text "Object is WORM protected"]])) ∧
  (deleteOldImage config (Str widgetUrl) locked).1 = Returned tt ∧
  ∃ imageUrl before rest,
    trace (uploadImage config 1 (Some jpeg) locked).2
      = before ++ Called (Minio_putObject (get config "MINIO_BUCKET")
                            "product-1-1700000123456.jpg" (buffer jpeg)
                            (length (buffer jpeg))
                            {[ "Content-Type" := Str "image/jpeg" ]})
          :: Called (Repo_update 1 {[ "imageUrl" := Str imageUrl ]}) :: rest.
Proof.
  destruct (old_image_failure_never_blocks_upload config locked)
    as (HdeleteFile & HdeleteOldImage & _ & HuploadImage).
  split; [|split].
  - apply (HdeleteFile (Str "product-1-1700000000000.jpg")
             (Error "Object is WORM protected") (ext locked)).
    compute_done.
  - rewrite (HdeleteOldImage widgetUrl (Error "Object is WORM protected")
               (ext locked)); [done|compute_done].
  - destruct (HuploadImage 1 widget (ext locked) jpeg)
      as (w2 & rest & Hdelete & Htrace & Hpersist);
      [split; compute_done|compute_done|compute_done|].
    assert (w2 = (deleteOldImage config (get widget "imageUrl")
                    (mkWorld (ext locked)
                       (trace locked ++ [Called (Repo_findById 1)]))).2)
      as Hw2 by (by rewrite Hdelete).
    assert (Hclock : Date_now (ext w2) = 1700000123456)
      by (rewrite Hw2; compute_done).
    rewrite Hclock in Htrace, Hpersist.
    change (pretty (1:Z)) with "1" in Htrace, Hpersist.
    destruct (Hpersist (handle
                          (Minio_putObject (get config "MINIO_BUCKET")
                             "product-1-1700000123456.jpg" (buffer jpeg)
                             (length (buffer jpeg))
                             {[ "Content-Type" := Str "image/jpeg" ]})
                          (ext w2)).2)
      as (imageUrl & rest' & ->).
    { apply answered_eq. rewrite Hw2. compute_done. }
    by exists imageUrl, (trace w2), rest'.
Defined.

Lemma uploadImage_checks_before_try_witness :
  uploadImage config 3 (Some jpeg) (start true)
    = (Thrown (notFound 3), (call (Repo_findById 3) (start true)).2) ∧
  uploadImage config 1 (Some jpeg) disconnected
    = (Thrown (Error "Connection terminated"),
       mkWorld (ext disconnected)
         (trace disconnected ++ [Called (Repo_findById 1)])) ∧
  uploadImage config 1 None (start true)
    = (Thrown (BadRequestException "Файл не предоставлен"),
       mkWorld (catalogue true)
         (trace (start true) ++ [Called (Repo_findById 1)])) ∧
  uploadImage config 1 (Some pdf) (start true)
    = (Thrown (BadRequestException "Файл должен быть изображением"),
       mkWorld (catalogue true)
         (trace (start true) ++ [Called (Repo_findById 1)])) ∧
  has_returned (uploadImage config 1 (Some jpeg) (start true)).1 = true ∧
  (uploadImage config 1 (Some jpeg) (start false)).1
    = Thrown (InternalServerErrorException "Не удалось загрузить изображение").
Proof.
  destruct (uploadImage_checks_before_try config 3 (Some jpeg) (start true))
    as (Hgone & _).
  destruct (uploadImage_checks_before_try config 1 (Some jpeg) disconnected)
    as (_ & Hdown & _).
  destruct (uploadImage_checks_before_try config 1 None (start true))
    as (_ & _ & Hnone).
  destruct (uploadImage_checks_before_try config 1 (Some pdf) (start true))
    as (_ & _ & Hpdf).
  destruct (uploadImage_checks_before_try config 1 (Some jpeg) (start true))
    as (_ & _ & Hjpeg).
  destruct (uploadImage_checks_before_try config 1 (Some jpeg) (start false))
    as (_ & _ & Hdegraded).
  split; [|split; [|split; [|split; [|split]]]].
  - exact (Hgone gizmo_is_not_live).
  - apply Hdown. compute_done.
  - exact (proj1 (Hnone widget (catalogue true) (widget_is_live true)) eq_refl).
  - apply (proj1 (proj2 (Hpdf widget (catalogue true) (widget_is_live true)))
             pdf eq_refl).
    compute_done.
  - destruct (proj2 (proj2 (Hjpeg widget (catalogue true) (widget_is_live true)))
                jpeg eq_refl ltac:(compute_done)) as [Hreturned _].
    erewrite Hreturned; [done|]. apply (returned_eq ∅). compute_done.
  - destruct (proj2 (proj2 (Hdegraded widget (catalogue false)
                              (widget_is_live false)))
                jpeg eq_refl ltac:(compute_done)) as [_ Hthrown].
    erewrite (Hthrown (Error "connect ECONNREFUSED")); [done|].
    instantiate (1 := (replaceImage config 1 widget jpeg
                         (mkWorld (catalogue false)
                            (trace (start false) ++ [Called (Repo_findById 1)]))).2).
    compute_done.
Defined.

(** The URL of the specification's example: an upload for product 5 is
    stored under a key that begins with product-5-. *)
Example uploadProductImage_for_product_5 :
  uploadProductImage config (buffer jpeg) 5 (start true)
    = (Returned "http://minio:9000/products/product-5-1700000123456.jpg",
       mkWorld
         (with_objects (catalogue true)
            (<["product-5-1700000123456.jpg" := buffer jpeg]>
               (objects (catalogue true))))
         [Called (Minio_putObject (Str "products")
                    "product-5-1700000123456.jpg" (buffer jpeg) 3
                    {[ "Content-Type" := Str "image/jpeg" ]})]).
Proof. compute_done. Qed.

(** The examples of the specification, on the reference repository: the
    widget created with no stock is stored as out of stock; a listing
    leaves the soft-deleted gizmo out unless it is asked for. *)
Example created_widget_is_out_of_stock :
  value ∅ (create newWidget (start true)).1 !! "inStock" = Some (Bool false) ∧
  (repo_findById 4 (ext (create newWidget (start true)).2)
     ≫= λ row, row !! "inStock") = Some (Bool false).
Proof. split; compute_done. Qed.

Example listing_leaves_deleted_out_by_default :
  (λ r : obj, r !! "id") <$> value [] (findAll config ∅ (start true)).1
    = [Some (Num 1); Some (Num 2)] ∧
  (λ r : obj, r !! "id") <$> value [] (findAll config withDeleted (start true)).1
    = [Some (Num 1); Some (Num 2); Some (Num 3)].
Proof. split; compute_done. Qed.

End InMemoryFacts.


(** * Further properties *)

(** ** minio.service.ts, beyond the claims *)

Section MinioMore.
Context {E : Type} `{!Environment E} (cfg : obj).

(** X1.  [getSignedUrl] never throws.  Without a file name (undefined,
    null or the empty string) it answers null and asks nobody.  With one
    it asks the client once, for a link on the configured bucket that is
    valid for 604800 seconds (seven days): the link is its answer, and a
    failure of the client is logged and becomes null. *)
Theorem getSignedUrl_swallows_failures fileName (w : World E) :
  let sign :=
    Minio_presignedGetObject (get cfg "MINIO_BUCKET") fileName (7 * 86400) in
  (∃ signedUrl w',
     getSignedUrl cfg fileName w = (Returned signedUrl, w') ∧
     (signedUrl = null ∨ ∃ s, signedUrl = Str s)) ∧
  (truthy fileName = false →
     getSignedUrl cfg fileName w = (Returned null, w)) ∧
  (truthy fileName = true →
     (∀ s e', handle sign (ext w) = (Returned s, e') →
        getSignedUrl cfg fileName w
          = (Returned (Str s), mkWorld e' (trace w ++ [Called sign]))) ∧
     (∀ error e', handle sign (ext w) = (Thrown error, e') →
        getSignedUrl cfg fileName w
          = (Returned null,
             mkWorld e'
               (trace w ++
                  [Called sign;
                   Console Err [Text "Ошибка при генерации подписанной ссылки:";
                                Text (message error)]])))).
Proof.
  intros sign. split; [|split].
  - destruct (truthy fileName) eqn:Hname.
    + destruct (handle sign (ext w)) as [[s|error] e'] eqn:Hsign.
      * eexists _, _. split; [by apply getSignedUrl_signed|]. right. by exists s.
      * eexists _, _. split; [by apply getSignedUrl_failed|]. by left.
    + eexists _, _. split; [by apply getSignedUrl_no_name|]. by left.
  - apply getSignedUrl_no_name.
  - intros Hname. split.
    + intros s e'. by apply getSignedUrl_signed.
    + intros error e'. by apply getSignedUrl_failed.
Qed.

(** X3.  The URL that [uploadProductImage] returns leads back to the
    object: read for its key in either of the two ways of the product
    service, it gives the key the bytes were stored under, whatever the
    configured endpoint, port and bucket are. *)
Theorem uploadProductImage_url_ends_with_key file productId url
    (w w' : World E) :
  uploadProductImage cfg file productId w = (Returned url, w') →
  let key := objectKey productId (Date_now (ext w)) in
  pop (split "/" url) = Str key ∧
  at_length_minus_1 (split "/" url) = Str key ∧
  trace w' = trace w ++
    [Called (Minio_putObject (get cfg "MINIO_BUCKET") key file (length file)
               {[ "Content-Type" := Str "image/jpeg" ]})].
Proof.
  rewrite uploadProductImage_run. intros Hrun key.
  fold (objectKey productId (Date_now (ext w))) in Hrun. fold key in Hrun.
  set (put := Minio_putObject _ _ _ _ _) in *.
  destruct (handle put (ext w)) as [[[]|error] e'] eqn:Hput; [|done].
  simpl in Hrun. injection Hrun as <- <-.
  rewrite <- !append_assoc.
  destruct (pop_key ((((((if bool_decide (get cfg "MINIO_USE_SSL" = Str "true")
                          then "https" else "http") +:+ "://")
                          +:+ ToString (get cfg "MINIO_ENDPOINT")) +:+ ":")
                          +:+ ToString (get cfg "MINIO_PORT")) +:+ "/"
                          +:+ ToString (get cfg "MINIO_BUCKET"))
              key (slashless_objectKey _ _)) as [Hpop Hat].
  rewrite !append_assoc in Hpop, Hat. rewrite !append_assoc.
  by rewrite Hpop, Hat.
Qed.

End MinioMore.

Section StartupFacts.
Context {E : Type} `{!BucketClient E} (cfg : obj).

(** X2.  The start-up check of the bucket never throws, so that the
    promise the constructor leaves unawaited never rejects.  The bucket is
    made only when the client has answered that it does not exist, in the
    region us-east-1, and the making is logged; whatever either call
    throws is logged as an error and goes no further. *)
Theorem initializeBucket_never_throws (w : World E) :
  let bucket := get cfg "MINIO_BUCKET" in
  let failed error :=
    Console Err [Text "Ошибка при инициализации бакета MinIO:";
                 Text (message error)] in
  (∃ w', initializeBucket cfg w = (Returned tt, w')) ∧
  (∀ e1, bucketExists bucket (ext w) = (Returned true, e1) →
     initializeBucket cfg w = (Returned tt, mkWorld e1 (trace w))) ∧
  (∀ e1 e2,
     bucketExists bucket (ext w) = (Returned false, e1) →
     makeBucket bucket "us-east-1" e1 = (Returned tt, e2) →
     initializeBucket cfg w
       = (Returned tt,
          mkWorld e2
            (trace w ++
               [Console Log [Text ("Бакет " +:+ quotationMark
                                     +:+ ToString bucket +:+ quotationMark
                                     +:+ " создан в MinIO")]]))) ∧
  (∀ e1 error e2,
     bucketExists bucket (ext w) = (Returned false, e1) →
     makeBucket bucket "us-east-1" e1 = (Thrown error, e2) →
     initializeBucket cfg w
       = (Returned tt, mkWorld e2 (trace w ++ [failed error]))) ∧
  (∀ error e1,
     bucketExists bucket (ext w) = (Thrown error, e1) →
     initializeBucket cfg w
       = (Returned tt, mkWorld e1 (trace w ++ [failed error]))).
Proof.
  intros bucket failed.
  assert (Hyes : ∀ e1, bucketExists bucket (ext w) = (Returned true, e1) →
    initializeBucket cfg w = (Returned tt, mkWorld e1 (trace w))).
  { intros e1 Hexists.
    unfold initializeBucket, try_catch, bind, ask, bucketName. fold bucket.
    by rewrite Hexists. }
  assert (Hmade : ∀ e1 e2,
    bucketExists bucket (ext w) = (Returned false, e1) →
    makeBucket bucket "us-east-1" e1 = (Returned tt, e2) →
    initializeBucket cfg w
      = (Returned tt,
         mkWorld e2
           (trace w ++
              [Console Log [Text ("Бакет " +:+ quotationMark
                                    +:+ ToString bucket +:+ quotationMark
                                    +:+ " создан в MinIO")]]))).
  { intros e1 e2 Hexists Hmake.
    unfold initializeBucket, try_catch, bind, ask, bucketName. fold bucket.
    rewrite Hexists. simpl. by rewrite Hmake. }
  assert (Hnot_made : ∀ e1 error e2,
    bucketExists bucket (ext w) = (Returned false, e1) →
    makeBucket bucket "us-east-1" e1 = (Thrown error, e2) →
    initializeBucket cfg w
      = (Returned tt, mkWorld e2 (trace w ++ [failed error]))).
  { intros e1 error e2 Hexists Hmake.
    unfold initializeBucket, try_catch, bind, ask, bucketName. fold bucket.
    rewrite Hexists. simpl. by rewrite Hmake. }
  assert (Hdown : ∀ error e1,
    bucketExists bucket (ext w) = (Thrown error, e1) →
    initializeBucket cfg w
      = (Returned tt, mkWorld e1 (trace w ++ [failed error]))).
  { intros error e1 Hexists.
    unfold initializeBucket, try_catch, bind, ask, bucketName. fold bucket.
    by rewrite Hexists. }
  split; [|done].
  destruct (bucketExists bucket (ext w)) as [[[]|error] e1] eqn:Hexists.
  - eexists. by apply Hyes.
  - destruct (makeBucket bucket "us-east-1" e1) as [[[]|error] e2] eqn:Hmake.
    + eexists. by eapply Hmade.
    + eexists. by eapply Hnot_made.
  - eexists. by apply Hdown.
Qed.

End StartupFacts.

(** ** What the operations may call *)

Section Footprints.
Context {E : Type} `{!Environment E} `{!StringNumericLiteral} (cfg : obj).
Context (P : event → Prop).

Lemma emits_getSignedUrl_of fileName :
  P (Called (Minio_presignedGetObject (bucketName cfg) fileName 604800)) →
  (∀ to args, P (Console to args)) →
  emits P (getSignedUrl cfg fileName).
Proof.
  intros Hsign Hconsole. unfold getSignedUrl.
  destruct (negb _); auto 10 with emits.
Qed.

Lemma emits_deleteFile_of fileName :
  P (Called (Minio_removeObject (bucketName cfg) fileName)) →
  (∀ to args, P (Console to args)) →
  emits P (deleteFile cfg fileName).
Proof. intros Hremove Hconsole. unfold deleteFile. auto 10 with emits. Qed.

Lemma emits_uploadProductImage_of file productId :
  (∀ key, P (Called (Minio_putObject (bucketName cfg) key file (length file)
                       {[ "Content-Type" := Str "image/jpeg" ]}))) →
  emits P (uploadProductImage cfg file productId).
Proof. intros Hput. unfold uploadProductImage. auto 10 with emits. Qed.

Lemma emits_signed_of onError product :
  (∀ name, P (Called (Minio_presignedGetObject (bucketName cfg) name 604800))) →
  (∀ to args, P (Console to args)) →
  (∀ error, emits P (onError error)) →
  emits P (bind (signImageUrl (getSignedUrl cfg) onError product)
                (λ product, ret (delete "isDeleted" product))).
Proof.
  intros Hsign Hconsole HonError. apply emits_bind; [|auto with emits].
  apply emits_signImageUrl; [|done].
  intros name. by apply emits_getSignedUrl_of.
Qed.

Lemma emits_deleteOldImage_of imageUrl :
  (∀ name, P (Called (Minio_removeObject (bucketName cfg) name))) →
  (∀ to args, P (Console to args)) →
  emits P (deleteOldImage cfg imageUrl).
Proof.
  intros Hremove Hconsole. unfold deleteOldImage, split_slash.
  apply emits_try_catch; [|auto with emits]. apply emits_bind.
  - destruct imageUrl; auto with emits.
  - intros parts. by apply emits_deleteFile_of.
Qed.

Lemma emits_findAll_of filters :
  P (Called (Repo_findAll (withDefaultIncludeDeleted filters))) →
  (∀ name, P (Called (Minio_presignedGetObject (bucketName cfg) name 604800))) →
  (∀ to args, P (Console to args)) →
  emits P (findAll cfg filters).
Proof.
  intros Hquery Hsign Hconsole. unfold findAll.
  apply emits_bind; [auto with emits|]. intros products.
  apply emits_bind; [|auto with emits].
  apply emits_Promise_all, Forall_map, Forall_forall. intros product _.
  unfold withSignedUrl. apply emits_signed_of; auto with emits.
Qed.

Lemma emits_findById_of id :
  P (Called (Repo_findById id)) →
  (∀ name, P (Called (Minio_presignedGetObject (bucketName cfg) name 604800))) →
  (∀ to args, P (Console to args)) →
  emits P (findById cfg id).
Proof.
  intros Hlookup Hsign Hconsole. unfold findById.
  apply emits_bind; [auto with emits|]. intros [product|]; [|auto with emits].
  destruct (truthy _); [auto with emits|].
  apply emits_signed_of; auto with emits.
Qed.

Lemma emits_create_of dto :
  P (Called (Repo_create (withInStockOnZeroStock dto))) →
  emits P (create dto).
Proof. intros Hcreate. unfold create. auto with emits. Qed.

Lemma emits_update_of id patch :
  P (Called (Repo_findById id)) →
  P (Called (Repo_update id (withInStockFromStock patch))) →
  (∀ name, P (Called (Minio_presignedGetObject (bucketName cfg) name 604800))) →
  (∀ to args, P (Console to args)) →
  emits P (update cfg id patch).
Proof.
  intros Hlookup Hupdate Hsign Hconsole. unfold update.
  apply emits_bind; [auto with emits|]. intros [product|]; [|auto with emits].
  destruct (truthy _); [auto with emits|].
  apply emits_bind; [auto with emits|]. intros updatedProduct.
  apply emits_signed_of; auto with emits.
Qed.

Lemma emits_remove_of id :
  P (Called (Repo_findById id)) →
  P (Called (Repo_softDelete id)) →
  emits P (remove id).
Proof.
  intros Hlookup Hdelete. unfold remove.
  apply emits_bind; [auto with emits|]. intros [product|]; [|auto with emits].
  destruct (truthy _); [auto with emits|].
  by apply (emits_call P (Repo_softDelete id)).
Qed.

Lemma emits_replaceImage_of id product file :
  (∀ url, P (Called (Repo_update id {[ "imageUrl" := Str url ]}))) →
  (∀ name, P (Called (Minio_removeObject (bucketName cfg) name))) →
  (∀ key, P (Called (Minio_putObject (bucketName cfg) key (buffer file)
                       (length (buffer file))
                       {[ "Content-Type" := Str "image/jpeg" ]}))) →
  (∀ name, P (Called (Minio_presignedGetObject (bucketName cfg) name 604800))) →
  (∀ to args, P (Console to args)) →
  emits P (replaceImage cfg id product file).
Proof.
  intros Hupdate Hremove Hput Hsign Hconsole. unfold replaceImage.
  apply emits_bind.
  { destruct (truthy _); [by apply emits_deleteOldImage_of|auto with emits]. }
  intros _. apply emits_bind; [by apply emits_uploadProductImage_of|].
  intros imageUrl. apply emits_bind; [auto with emits|].
  intros updatedProduct. apply emits_signed_of; auto with emits.
Qed.

Lemma emits_uploadImage_of id file :
  P (Called (Repo_findById id)) →
  (∀ url, P (Called (Repo_update id {[ "imageUrl" := Str url ]}))) →
  (∀ name, P (Called (Minio_removeObject (bucketName cfg) name))) →
  (∀ key data size,
     P (Called (Minio_putObject (bucketName cfg) key data size
                  {[ "Content-Type" := Str "image/jpeg" ]}))) →
  (∀ name, P (Called (Minio_presignedGetObject (bucketName cfg) name 604800))) →
  (∀ to args, P (Console to args)) →
  emits P (uploadImage cfg id file).
Proof.
  intros Hlookup Hupdate Hremove Hput Hsign Hconsole. unfold uploadImage.
  apply emits_bind; [auto with emits|]. intros [product|]; [|auto with emits].
  destruct (truthy _); [auto with emits|].
  destruct file as [file|]; [|auto with emits].
  destruct (negb _); [auto with emits|].
  apply emits_try_catch; [by apply emits_replaceImage_of|].
  intros error. unfold uploadFailed. auto with emits.
Qed.

End Footprints.

Section FootprintTheorems.
Context {E : Type} `{!Environment E} `{!StringNumericLiteral} (cfg : obj).

(** X9.  Each operation calls only what its purpose needs.  The listing
    and the lookup only read the repository and ask for signed links;
    [create] only creates; [update] never stores or removes an object;
    [remove] looks up and soft-deletes and never touches the object store,
    so that the image of a removed product stays where it is; only
    [uploadImage] stores and removes objects, and it never creates or
    soft-deletes a record. *)
Theorem operations_call_only_what_they_need filters id dto patch file :
  emits (E:=E) (among [RepoFindAll; PresignedGetObject; ConsoleLine])
    (findAll cfg filters) ∧
  emits (E:=E) (among [RepoFindById; PresignedGetObject; ConsoleLine])
    (findById cfg id) ∧
  emits (E:=E) (among [RepoCreate]) (create dto) ∧
  emits (E:=E) (among [RepoFindById; RepoUpdate; PresignedGetObject; ConsoleLine])
    (update cfg id patch) ∧
  emits (E:=E) (among [RepoFindById; RepoSoftDelete]) (remove id) ∧
  emits (E:=E)
    (among [RepoFindById; RemoveObject; PutObject; RepoUpdate;
            PresignedGetObject; ConsoleLine])
    (uploadImage cfg id file).
Proof.
  split; [|split; [|split; [|split; [|split]]]].
  - apply emits_findAll_of; intros; unfold among, kind_of; compute_done.
  - apply emits_findById_of; intros; unfold among, kind_of; compute_done.
  - apply emits_create_of; intros; unfold among, kind_of; compute_done.
  - apply emits_update_of; intros; unfold among, kind_of; compute_done.
  - apply emits_remove_of; intros; unfold among, kind_of; compute_done.
  - apply emits_uploadImage_of; intros; unfold among, kind_of; compute_done.
Qed.

(** X10.  Whatever the operations ask of the MinIO client, they ask it of
    the one bucket that the configuration names under MINIO_BUCKET. *)
Theorem operations_keep_to_the_configured_bucket filters id dto patch file :
  let kept := in_bucket (get cfg "MINIO_BUCKET") in
  emits (E:=E) kept (findAll cfg filters) ∧
  emits (E:=E) kept (findById cfg id) ∧
  emits (E:=E) kept (create dto) ∧
  emits (E:=E) kept (update cfg id patch) ∧
  emits (E:=E) kept (remove id) ∧
  emits (E:=E) kept (uploadImage cfg id file).
Proof.
  intros kept. split; [|split; [|split; [|split; [|split]]]].
  - by apply emits_findAll_of.
  - by apply emits_findById_of.
  - by apply emits_create_of.
  - by apply emits_update_of.
  - by apply emits_remove_of.
  - by apply emits_uploadImage_of.
Qed.

End FootprintTheorems.

(** ** products.service.ts: the steps of [uploadImage] *)

Section UploadSteps.
Context {E : Type} `{!Environment E} `{!StringNumericLiteral} (cfg : obj).

Lemma begins_with_call r : begins_with (E:=E) r (call r).
Proof. intros w. exists []. by rewrite call_world. Qed.

Lemma begins_with_bind {A B} r (m : M E A) (k : A → M E B) :
  begins_with r m → (∀ a, emits (λ _, True) (k a)) → begins_with r (bind m k).
Proof.
  intros Hm Hk w. unfold bind. destruct (Hm w) as [rest Hrest].
  destruct (m w) as [[a|error] w1]; simpl in *.
  - destruct (Hk a w1) as (t & Ht & _). exists (rest ++ t).
    by rewrite Ht, Hrest, <- app_assoc.
  - by exists rest.
Qed.

Lemma begins_with_try_catch {A} r (m : M E A) h :
  begins_with r m → (∀ error, emits (λ _, True) (h error)) →
  begins_with r (try_catch m h).
Proof.
  intros Hm Hh w. unfold try_catch. destruct (Hm w) as [rest Hrest].
  destruct (m w) as [[a|error] w1]; simpl in *.
  - by exists rest.
  - destruct (Hh error w1) as (t & Ht & _). exists (rest ++ t).
    by rewrite Ht, Hrest, <- app_assoc.
Qed.

Lemma begins_with_deleteOldImage url :
  begins_with (E:=E)
    (Minio_removeObject (get cfg "MINIO_BUCKET")
       (at_length_minus_1 (split "/" url)))
    (deleteOldImage cfg (Str url)).
Proof.
  unfold deleteOldImage. apply begins_with_try_catch; [|auto with emits].
  change (begins_with
            (Minio_removeObject (get cfg "MINIO_BUCKET")
               (at_length_minus_1 (split "/" url)))
            (deleteFile cfg (at_length_minus_1 (split "/" url)))).
  unfold deleteFile. apply begins_with_try_catch; [|auto with emits].
  apply (begins_with_call (Minio_removeObject _ _)).
Qed.

Lemma bind_ret_l {A B} (a : A) (k : A → M E B) : bind (ret a) k = k a.
Proof. done. Qed.

Lemma stripped_with_image (p : obj) v :
  delete "isDeleted" (<["imageUrl" := v]> p) !! "imageUrl" = Some v.
Proof. rewrite lookup_delete_ne by done. by rewrite lookup_insert_eq. Qed.

Lemma stripped_without_image (p : obj) :
  delete "isDeleted" (delete "imageUrl" p) !! "imageUrl" = None.
Proof. rewrite lookup_delete_ne by done. by rewrite lookup_delete_eq. Qed.

Lemma truthy_objectKey productId millis :
  truthy (Str (objectKey productId millis)) = true.
Proof. done. Qed.

Lemma truthy_before_slash (a b : string) : truthy (Str (a +:+ "/" +:+ b)) = true.
Proof. by destruct a. Qed.

(** What [uploadProductImage] returns, cut at the key. *)
Lemma uploadProductImage_returned file productId url (w w' : World E) :
  uploadProductImage cfg file productId w = (Returned url, w') →
  let key := objectKey productId (Date_now (ext w)) in
  let put := Minio_putObject (get cfg "MINIO_BUCKET") key file (length file)
               {[ "Content-Type" := Str "image/jpeg" ]} in
  (∃ before, url = before +:+ "/" +:+ key) ∧
  w' = mkWorld (handle put (ext w)).2 (trace w ++ [Called put]) ∧
  (handle put (ext w)).1 = Returned tt.
Proof.
  rewrite uploadProductImage_run. intros Hrun key put.
  fold (objectKey productId (Date_now (ext w))) in Hrun.
  fold key in Hrun. fold put in Hrun.
  destruct (handle put (ext w)) as [[[]|error] e'] eqn:Hput; [|done].
  simpl in Hrun. injection Hrun as <- <-. split; [|done].
  exists ((((((if bool_decide (get cfg "MINIO_USE_SSL" = Str "true")
               then "https" else "http") +:+ "://")
               +:+ ToString (get cfg "MINIO_ENDPOINT")) +:+ ":")
               +:+ ToString (get cfg "MINIO_PORT")) +:+ "/"
               +:+ ToString (get cfg "MINIO_BUCKET")).
  by rewrite !append_assoc.
Qed.

Lemma replaceImage_after_delete id product file (w1 w2 : World E) :
  (if truthy (get product "imageUrl")
   then deleteOldImage cfg (get product "imageUrl") else ret tt) w1
    = (Returned tt, w2) →
  replaceImage cfg id product file w1
    = bind (uploadProductImage cfg (buffer file) id)
        (λ imageUrl,
           bind (call (Repo_update id {[ "imageUrl" := Str imageUrl ]}))
             (λ updatedProduct,
                bind (signImageUrl (getSignedUrl cfg) (λ _, ret tt)
                        updatedProduct)
                     (λ updatedProduct,
                        ret (delete "isDeleted" updatedProduct)))) w2.
Proof.
  intros Hdelete. unfold replaceImage.
  by rewrite (bind_Returned _ _ _ _ _ Hdelete).
Qed.

(** X7.  When the store refuses the new object, [uploadImage] stops there:
    the repository is not asked to update anything, so the record never
    points at an object that was not stored, and the caller gets the one
    InternalServerError exception, the cause going to the console. *)
Theorem uploadImage_failed_upload_updates_nothing
    id product e1 file w2 error e3 (w : World E) :
  live id product (ext w) e1 →
  startsWith (mimetype file) "image/" = true →
  (if truthy (get product "imageUrl")
   then deleteOldImage cfg (get product "imageUrl") else ret tt)
    (mkWorld e1 (trace w ++ [Called (Repo_findById id)])) = (Returned tt, w2) →
  let put := Minio_putObject (get cfg "MINIO_BUCKET")
               (objectKey id (Date_now (ext w2))) (buffer file)
               (length (buffer file)) {[ "Content-Type" := Str "image/jpeg" ]} in
  handle put (ext w2) = (Thrown error, e3) →
  uploadImage cfg id (Some file) w
    = (Thrown (InternalServerErrorException "Не удалось загрузить изображение"),
       mkWorld e3
         (trace w2 ++
            [Called put;
             Console Err [Text "Ошибка при загрузке изображения:";
                          Value error]])).
Proof.
  intros Hlive Hmime Hdelete put Hput.
  rewrite (uploadImage_live cfg _ _ _ _ _ Hlive Hmime).
  rewrite (try_catch_Thrown _ _ _ error (mkWorld e3 (trace w2 ++ [Called put]))).
  - rewrite uploadFailed_run. simpl. by rewrite <- app_assoc.
  - rewrite (replaceImage_after_delete _ _ _ _ _ Hdelete).
    unfold bind at 1. rewrite uploadProductImage_run.
    fold (objectKey id (Date_now (ext w2))). fold put. by rewrite Hput.
Qed.

(** X5.  When the upload has succeeded and the repository hands back the
    record with the URL it was given, the link that [uploadImage] answers
    with is the signed link of the very object it has just stored: the
    signer is asked for the key of that object, and the product returned
    carries what it answers (no [imageUrl] at all when it fails). *)
Theorem uploadImage_signs_what_it_stored
    id product e1 file w2 url w3 updated e4 (w : World E) :
  live id product (ext w) e1 →
  startsWith (mimetype file) "image/" = true →
  (if truthy (get product "imageUrl")
   then deleteOldImage cfg (get product "imageUrl") else ret tt)
    (mkWorld e1 (trace w ++ [Called (Repo_findById id)])) = (Returned tt, w2) →
  uploadProductImage cfg (buffer file) id w2 = (Returned url, w3) →
  handle (Repo_update id {[ "imageUrl" := Str url ]}) (ext w3)
    = (Returned updated, e4) →
  get updated "imageUrl" = Str url →
  let stored := Minio_putObject (get cfg "MINIO_BUCKET")
                  (objectKey id (Date_now (ext w2))) (buffer file)
                  (length (buffer file))
                  {[ "Content-Type" := Str "image/jpeg" ]} in
  let sign := Minio_presignedGetObject (get cfg "MINIO_BUCKET")
                (Str (objectKey id (Date_now (ext w2)))) 604800 in
  ∃ r w' t,
    uploadImage cfg id (Some file) w = (Returned r, w') ∧
    trace w' = trace w2 ++
      Called stored :: Called (Repo_update id {[ "imageUrl" := Str url ]})
        :: Called sign :: t ∧
    (∀ s e5, handle sign e4 = (Returned s, e5) → s ≠ "" →
       r !! "imageUrl" = Some (Str s)) ∧
    (∀ error e5, handle sign e4 = (Thrown error, e5) →
       r !! "imageUrl" = None).
Proof.
  intros Hlive Hmime Hdelete Hupload Hupdate Hkept stored sign.
  destruct (uploadProductImage_returned _ _ _ _ _ Hupload)
    as ((before & Hurl) & Hw3 & _).
  fold stored in Hw3.
  rewrite (uploadImage_live cfg _ _ _ _ _ Hlive Hmime).
  assert (Hblock : ∀ signedUrl w4,
    getSignedUrl cfg (Str (objectKey id (Date_now (ext w2))))
      (mkWorld e4 (trace w3 ++ [Called (Repo_update id {[ "imageUrl" := Str url ]})]))
      = (Returned signedUrl, w4) →
    try_catch (replaceImage cfg id product file) uploadFailed
      (mkWorld e1 (trace w ++ [Called (Repo_findById id)]))
      = (Returned (delete "isDeleted"
                     (if truthy signedUrl
                      then <["imageUrl" := signedUrl]> updated
                      else delete "imageUrl" updated)), w4)).
  { intros signedUrl w4 Hsign. apply try_catch_Returned.
    rewrite (replaceImage_after_delete _ _ _ _ _ Hdelete).
    rewrite (bind_Returned _ _ _ _ _ Hupload).
    rewrite (bind_Returned _ _ _ _ _
               (call_handle (Repo_update id _) _ _ _ Hupdate)).
    unfold signImageUrl. rewrite Hkept, Hurl, truthy_before_slash.
    unfold split_slash. rewrite bind_ret_l.
    destruct (pop_key before (objectKey id (Date_now (ext w2)))
                (slashless_objectKey _ _)) as [-> _].
    rewrite <- Hurl. unfold try_catch, bind.
    rewrite Hsign. by destruct (truthy signedUrl). }
  assert (Htrace : trace w3 ++ [Called (Repo_update id {[ "imageUrl" := Str url ]})]
                   = trace w2 ++ [Called stored;
                        Called (Repo_update id {[ "imageUrl" := Str url ]})]).
  { rewrite Hw3. simpl. by rewrite <- app_assoc. }
  destruct (handle sign e4) as [[s|error] e5] eqn:Hsign.
  - eexists _, _, []. split; [|split; [|split]].
    + apply Hblock, getSignedUrl_signed; [apply truthy_objectKey|exact Hsign].
    + simpl. rewrite Htrace. by rewrite <- app_assoc.
    + intros s' e5' [= <- <-] Hs. apply truthy_Str in Hs.
      rewrite Hs. apply (stripped_with_image updated).
    + intros error e5' [=].
  - eexists _, _, [_]. split; [|split; [|split]].
    + apply Hblock, getSignedUrl_failed; [apply truthy_objectKey|exact Hsign].
    + simpl. rewrite Htrace. by rewrite <- app_assoc.
    + intros s e5' [=].
    + intros error' e5' _. apply (stripped_without_image updated).
Qed.

Lemma deleteOldImage_deleted url e' (w : World E) :
  handle (Minio_removeObject (get cfg "MINIO_BUCKET")
            (at_length_minus_1 (split "/" url))) (ext w) = (Returned tt, e') →
  deleteOldImage cfg (Str url) w
    = (Returned tt,
       mkWorld e'
         (trace w ++
            [Called (Minio_removeObject (get cfg "MINIO_BUCKET")
                       (at_length_minus_1 (split "/" url)))])).
Proof.
  intros Hremove. unfold deleteOldImage, split_slash. rewrite bind_ret_l.
  apply try_catch_Returned. by apply deleteFile_deleted.
Qed.

(** What follows the deletion of the old image, failures included. *)
Lemma emits_after_delete id file :
  emits (E:=E) (among [PutObject; RepoUpdate; PresignedGetObject; ConsoleLine])
    (try_catch
       (bind (uploadProductImage cfg (buffer file) id)
          (λ imageUrl,
             bind (call (Repo_update id {[ "imageUrl" := Str imageUrl ]}))
               (λ updatedProduct,
                  bind (signImageUrl (getSignedUrl cfg) (λ _, ret tt)
                          updatedProduct)
                       (λ updatedProduct,
                          ret (delete "isDeleted" updatedProduct)))))
       uploadFailed).
Proof.
  apply emits_try_catch.
  - apply emits_bind.
    { apply emits_uploadProductImage_of. intros; unfold among, kind_of; compute_done. }
    intros imageUrl. apply emits_bind.
    { apply (emits_call _ (Repo_update id _)). unfold among, kind_of; compute_done. }
    intros updatedProduct.
    apply emits_signed_of; [intros; unfold among, kind_of; compute_done..|].
    intros error. auto with emits.
  - intros error. unfold uploadFailed. apply emits_bind; [|auto with emits].
    apply emits_console. unfold among, kind_of; compute_done.
Qed.

Lemma uploadImage_after_delete id product e1 file w2 (w : World E) :
  live id product (ext w) e1 →
  startsWith (mimetype file) "image/" = true →
  (if truthy (get product "imageUrl")
   then deleteOldImage cfg (get product "imageUrl") else ret tt)
    (mkWorld e1 (trace w ++ [Called (Repo_findById id)])) = (Returned tt, w2) →
  ∃ t, trace (uploadImage cfg id (Some file) w).2 = trace w2 ++ t ∧
       Forall (among [PutObject; RepoUpdate; PresignedGetObject; ConsoleLine]) t.
Proof.
  intros Hlive Hmime Hdelete.
  rewrite (uploadImage_live cfg _ _ _ _ _ Hlive Hmime).
  destruct (emits_after_delete id file w2) as (t & Ht & Hkinds).
  exists t. split; [|done]. rewrite <- Ht. f_equal.
  unfold try_catch at 1. rewrite (replaceImage_after_delete _ _ _ _ _ Hdelete).
  done.
Qed.

(** X6.  [uploadImage] removes one object at most, and first of all: the
    one that the product's stored URL names after its last slash.  A
    product without an image has nothing removed.  Whatever comes after is
    the upload, the update of the record and the signing. *)
Theorem uploadImage_removes_the_old_image_only id product e1 file (w : World E) :
  live id product (ext w) e1 →
  startsWith (mimetype file) "image/" = true →
  (∀ url, get product "imageUrl" = Str url → url ≠ "" →
     ∃ rest,
       trace (uploadImage cfg id (Some file) w).2
         = trace w ++ Called (Repo_findById id)
             :: Called (Minio_removeObject (get cfg "MINIO_BUCKET")
                          (at_length_minus_1 (split "/" url)))
             :: rest ∧
       Forall (among [PutObject; RepoUpdate; PresignedGetObject; ConsoleLine])
         rest) ∧
  (truthy (get product "imageUrl") = false →
     ∃ rest,
       trace (uploadImage cfg id (Some file) w).2
         = trace w ++ Called (Repo_findById id) :: rest ∧
       Forall (among [PutObject; RepoUpdate; PresignedGetObject; ConsoleLine])
         rest).
Proof.
  intros Hlive Hmime. split.
  - intros url Hurl Hne. apply truthy_Str in Hne.
    set (w1 := mkWorld e1 (trace w ++ [Called (Repo_findById id)])).
    set (gone := Minio_removeObject (get cfg "MINIO_BUCKET")
                   (at_length_minus_1 (split "/" url))).
    assert (∃ w2 logged,
      deleteOldImage cfg (Str url) w1 = (Returned tt, w2) ∧
      trace w2 = trace w1 ++ Called gone :: logged ∧
      Forall (among [PutObject; RepoUpdate; PresignedGetObject; ConsoleLine])
        logged) as (w2 & logged & Hdelete & Hw2 & Hlogged).
    { destruct (handle gone (ext w1)) as [[[]|error] e'] eqn:Hgone.
      - eexists _, []. split; [by apply deleteOldImage_deleted|]. by split.
      - eexists _, [_; _]. split; [by apply deleteOldImage_failed|].
        split; [done|]. repeat constructor; unfold among, kind_of; compute_done. }
    destruct (uploadImage_after_delete id product e1 file w2 w Hlive Hmime)
      as (t & Ht & Hkinds).
    { fold w1. by rewrite Hurl, Hne. }
    exists (logged ++ t). split; [|by apply Forall_app].
    rewrite Ht, Hw2. simpl. by rewrite <- !app_assoc.
  - intros Hnone.
    destruct (uploadImage_after_delete id product e1 file
                (mkWorld e1 (trace w ++ [Called (Repo_findById id)])) w
                Hlive Hmime) as (t & Ht & Hkinds).
    { by rewrite Hnone. }
    exists t. split; [|done]. rewrite Ht. simpl. by rewrite <- app_assoc.
Qed.

End UploadSteps.

(** ** products.service.ts: errors of the repository, products without an
    image, the order of the signing requests *)

Section ServiceMore.
Context {E : Type} `{!Environment E} `{!StringNumericLiteral} (cfg : obj).

(** X8.  Outside [uploadImage] nothing stands between the repository and
    the caller: what the repository throws, in the query of [findAll], in
    the lookup of [findById], [update] and [remove], in [create], and in
    the update and the soft delete that follow a lookup, is thrown by the
    operation as it is, and the operation does nothing more. *)
Theorem repository_errors_pass_through (w : World E) :
  (∀ filters error e1,
     handle (Repo_findAll (withDefaultIncludeDeleted filters)) (ext w)
       = (Thrown error, e1) →
     findAll cfg filters w
       = (Thrown error,
          mkWorld e1 (trace w ++
            [Called (Repo_findAll (withDefaultIncludeDeleted filters))]))) ∧
  (∀ id patch error e1,
     handle (Repo_findById id) (ext w) = (Thrown error, e1) →
     let w1 := mkWorld e1 (trace w ++ [Called (Repo_findById id)]) in
     findById cfg id w = (Thrown error, w1) ∧
     update cfg id patch w = (Thrown error, w1) ∧
     remove id w = (Thrown error, w1)) ∧
  (∀ dto error e1,
     handle (Repo_create (withInStockOnZeroStock dto)) (ext w)
       = (Thrown error, e1) →
     create dto w
       = (Thrown error,
          mkWorld e1 (trace w ++
            [Called (Repo_create (withInStockOnZeroStock dto))]))) ∧
  (∀ id patch product e1 error e2,
     live id product (ext w) e1 →
     handle (Repo_update id (withInStockFromStock patch)) e1
       = (Thrown error, e2) →
     update cfg id patch w
       = (Thrown error,
          mkWorld e2 (trace w ++
            [Called (Repo_findById id);
             Called (Repo_update id (withInStockFromStock patch))]))) ∧
  (∀ id product e1 error e2,
     live id product (ext w) e1 →
     handle (Repo_softDelete id) e1 = (Thrown error, e2) →
     remove id w
       = (Thrown error,
          mkWorld e2 (trace w ++
            [Called (Repo_findById id); Called (Repo_softDelete id)]))).
Proof.
  split; [|split; [|split; [|split]]].
  - intros filters error e1 Hquery. unfold findAll.
    by rewrite (bind_Thrown _ _ _ _ _ (call_handle (Repo_findAll _) _ _ _ Hquery)).
  - intros id patch error e1 Hlookup w1.
    pose proof (call_handle (Repo_findById id) _ _ _ Hlookup) as Hcall.
    unfold findById, update, remove.
    by rewrite !(bind_Thrown _ _ _ _ _ Hcall).
  - intros dto error e1 Hcreate. unfold create.
    by rewrite (bind_Thrown _ _ _ _ _ (call_handle (Repo_create _) _ _ _ Hcreate)).
  - intros id patch product e1 error e2 [Hlookup Hlive] Hupdate. unfold update.
    rewrite (bind_Returned _ _ _ _ _ (call_handle (Repo_findById id) _ _ _ Hlookup)).
    rewrite Hlive. simpl.
    rewrite (bind_Thrown _ _ _ _ _
               (call_handle (Repo_update id (withInStockFromStock patch))
                  (mkWorld e1 (trace w ++ [Called (Repo_findById id)])) _ _ Hupdate)).
    simpl. by rewrite <- app_assoc.
  - intros id product e1 error e2 [Hlookup Hlive] Hdelete. unfold remove.
    rewrite (bind_Returned _ _ _ _ _ (call_handle (Repo_findById id) _ _ _ Hlookup)).
    rewrite Hlive.
    rewrite (call_handle (Repo_softDelete id)
               (mkWorld e1 (trace w ++ [Called (Repo_findById id)])) _ _ Hdelete).
    simpl. by rewrite <- app_assoc.
Qed.

Lemma withSignedUrl_without_image product (w : World E) :
  truthy (get product "imageUrl") = false →
  withSignedUrl cfg product w = (Returned (delete "isDeleted" product), w).
Proof.
  intros Hnone. unfold withSignedUrl.
  by rewrite (bind_Returned _ _ _ _ _ (signImageUrl_untouched _ _ _ _ Hnone)).
Qed.

Lemma settle_all_without_images products (w : World E) :
  Forall (λ p : obj, truthy (get p "imageUrl") = false) products →
  settle_all (map (withSignedUrl cfg) products) w
    = (Returned <$> (delete "isDeleted" <$> products), w).
Proof.
  induction 1 as [|product products Hnone _ IH]; csimpl; [done|].
  by rewrite (withSignedUrl_without_image _ _ Hnone), IH.
Qed.

(** X11.  A product without an image (no [imageUrl], or null, or the
    empty string) costs no call to the object store and is returned as
    the repository gave it, less [isDeleted]: in [findById], in [update]
    and, when no product of the list has an image, in [findAll].  A null
    [imageUrl] thus stays in the response. *)
Theorem product_without_image_is_returned_as_stored (w : World E) :
  (∀ id product e1,
     live id product (ext w) e1 →
     truthy (get product "imageUrl") = false →
     findById cfg id w
       = (Returned (delete "isDeleted" product),
          mkWorld e1 (trace w ++ [Called (Repo_findById id)]))) ∧
  (∀ id patch product e1 updated e2,
     live id product (ext w) e1 →
     handle (Repo_update id (withInStockFromStock patch)) e1
       = (Returned updated, e2) →
     truthy (get updated "imageUrl") = false →
     update cfg id patch w
       = (Returned (delete "isDeleted" updated),
          mkWorld e2 (trace w ++
            [Called (Repo_findById id);
             Called (Repo_update id (withInStockFromStock patch))]))) ∧
  (∀ filters products e1,
     handle (Repo_findAll (withDefaultIncludeDeleted filters)) (ext w)
       = (Returned products, e1) →
     Forall (λ p : obj, truthy (get p "imageUrl") = false) products →
     findAll cfg filters w
       = (Returned (delete "isDeleted" <$> products),
          mkWorld e1 (trace w ++
            [Called (Repo_findAll (withDefaultIncludeDeleted filters))]))).
Proof.
  split; [|split].
  - intros id product e1 [Hlookup Hlive] Hnone. unfold findById.
    rewrite (bind_Returned _ _ _ _ _ (call_handle (Repo_findById id) _ _ _ Hlookup)).
    rewrite Hlive.
    by rewrite (bind_Returned _ _ _ _ _ (signImageUrl_untouched _ _ _ _ Hnone)).
  - intros id patch product e1 updated e2 [Hlookup Hlive] Hupdate Hnone.
    unfold update.
    rewrite (bind_Returned _ _ _ _ _ (call_handle (Repo_findById id) _ _ _ Hlookup)).
    rewrite Hlive. simpl.
    rewrite (bind_Returned _ _ _ _ _
               (call_handle (Repo_update id (withInStockFromStock patch))
                  (mkWorld e1 (trace w ++ [Called (Repo_findById id)])) _ _ Hupdate)).
    rewrite (bind_Returned _ _ _ _ _ (signImageUrl_untouched _ _ _ _ Hnone)).
    unfold ret. simpl. by rewrite <- app_assoc.
  - intros filters products e1 Hquery Hnone.
    rewrite (findAll_run cfg _ _ _ _ Hquery).
    rewrite (settle_all_without_images _ _ Hnone).
    by rewrite all_fulfilled_Returned.
Qed.

(** X14.  Whatever goes wrong in [uploadImage], the caller sees one of
    five things: the NotFound exception for the id, one of the two
    BadRequest exceptions for the file, the one InternalServerError
    exception, or the error that the lookup itself threw.  No error of the
    object store, and no error of the update of the record, gets out as it
    is. *)
Theorem uploadImage_throws_five_things_only id file (w : World E) :
  match (uploadImage cfg id file w).1 with
  | Returned _ => True
  | Thrown error =>
      error = notFound id ∨
      error = BadRequestException "Файл не предоставлен" ∨
      error = BadRequestException "Файл должен быть изображением" ∨
      error = InternalServerErrorException "Не удалось загрузить изображение" ∨
      (handle (Repo_findById id) (ext w)).1 = Thrown error
  end.
Proof.
  unfold uploadImage, bind at 1, call.
  destruct (handle (Repo_findById id) (ext w)) as [[[product|]|error] e1];
    simpl; [|by left|by do 4 right].
  destruct (truthy _); simpl; [by left|].
  destruct file as [file|]; simpl; [|by right; left].
  destruct (negb _); simpl; [by do 2 right; left|].
  unfold try_catch.
  destruct (replaceImage cfg id product file _) as [[r|error] w2]; [done|].
  rewrite uploadFailed_run. simpl. by do 3 right; left.
Qed.

Lemma calls_app (t1 t2 : list event) : calls (t1 ++ t2) = calls t1 ++ calls t2.
Proof. apply List.filter_app. Qed.

Lemma withSignedUrl_calls product (w : World E) :
  image_typed product →
  ∃ t, trace (withSignedUrl cfg product w).2 = trace w ++ t ∧
       calls t = signing_request (get cfg "MINIO_BUCKET") product.
Proof.
  intros Htyped. unfold signing_request.
  destruct (truthy (get product "imageUrl")) eqn:Himage.
  - destruct (Htyped Himage) as [url Hurl]. rewrite Hurl.
    unfold withSignedUrl, signImageUrl. rewrite Himage, Hurl.
    unfold split_slash. rewrite bind_ret_l.
    destruct (truthy (pop (split "/" url))) eqn:Hkey.
    + destruct (handle (Minio_presignedGetObject (bucketName cfg)
                          (pop (split "/" url)) 604800) (ext w))
        as [[s|error] e'] eqn:Hsign.
      * exists [Called (Minio_presignedGetObject (bucketName cfg)
                          (pop (split "/" url)) 604800)].
        split; [|done]. unfold try_catch, bind.
        rewrite (getSignedUrl_signed cfg _ _ _ _ Hkey Hsign).
        by destruct (truthy (Str s)).
      * exists [Called (Minio_presignedGetObject (bucketName cfg)
                          (pop (split "/" url)) 604800);
                Console Err [Text "Ошибка при генерации подписанной ссылки:";
                             Text (message error)]].
        split; [|done]. unfold try_catch, bind.
        by rewrite (getSignedUrl_failed cfg _ _ _ _ Hkey Hsign).
    + exists []. split; [|done]. unfold try_catch, bind.
      rewrite (getSignedUrl_no_name cfg _ _ Hkey). simpl. by rewrite app_nil_r.
  - exists []. rewrite (withSignedUrl_without_image _ _ Himage). simpl.
    by rewrite app_nil_r.
Qed.

Lemma settle_all_calls products (w : World E) :
  Forall image_typed products →
  ∃ t, trace (settle_all (map (withSignedUrl cfg) products) w).2 = trace w ++ t ∧
       calls t = flat_map (signing_request (get cfg "MINIO_BUCKET")) products.
Proof.
  intros Htyped. revert w.
  induction Htyped as [|product products Hproduct _ IH]; intros w; simpl.
  - exists []. by rewrite app_nil_r.
  - destruct (withSignedUrl_calls product w Hproduct) as (t1 & Ht1 & Hcalls1).
    destruct (withSignedUrl cfg product w) as [o w1]. simpl in Ht1.
    destruct (IH w1) as (t2 & Ht2 & Hcalls2).
    destruct (settle_all (map (withSignedUrl cfg) products) w1) as [os w2].
    simpl in *. exists (t1 ++ t2). split.
    + by rewrite Ht2, Ht1, <- app_assoc.
    + by rewrite calls_app, Hcalls1, Hcalls2.
Qed.

(** X15.  After its one query, [findAll] asks for signed links in the
    order of the repository's list: one request for every product that
    has an image whose URL does not end in a slash, for the last segment
    of that URL and for seven days, and none for the other products.  It
    makes no other call. *)
Theorem findAll_signs_in_the_order_of_the_list filters products e1
    (w : World E) :
  handle (Repo_findAll (withDefaultIncludeDeleted filters)) (ext w)
    = (Returned products, e1) →
  Forall image_typed products →
  ∃ t,
    trace (findAll cfg filters w).2
      = trace w ++ Called (Repo_findAll (withDefaultIncludeDeleted filters)) :: t ∧
    calls t = flat_map (signing_request (get cfg "MINIO_BUCKET")) products.
Proof.
  intros Hquery Htyped. rewrite (findAll_run cfg _ _ _ _ Hquery).
  destruct (settle_all_calls products
              (mkWorld e1 (trace w ++
                 [Called (Repo_findAll (withDefaultIncludeDeleted filters))]))
              Htyped) as (t & Ht & Hcalls).
  exists t. split; [|done].
  destruct (settle_all _ _) as [os w']. simpl in *.
  by rewrite Ht, <- app_assoc.
Qed.

(** X12.  Once [remove] has succeeded on an id, and the repository keeps
    its contract, the product is gone for the other operations as well:
    [findById] and [uploadImage] fail with NotFound, [update] fails with
    NotFound or with its BadRequest for a deleted product, and none of
    them does anything but look the id up. *)
Theorem removed_product_is_gone_for_all id (w w1 : World E) :
  RepositoryContract →
  remove id w = (Returned tt, w1) →
  let w2 := mkWorld (ext w1) (trace w1 ++ [Called (Repo_findById id)]) in
  findById cfg id w1 = (Thrown (notFound id), w2) ∧
  (∀ file, uploadImage cfg id file w1 = (Thrown (notFound id), w2)) ∧
  (∀ patch,
     update cfg id patch w1 = (Thrown (notFound id), w2) ∨
     update cfg id patch w1
       = (Thrown (BadRequestException "Нельзя обновлять удалённый товар"), w2)).
Proof.
  intros [Hreads Hflags] Hremoved w2.
  destruct (remove_Returned_inv _ _ _ Hremoved) as [e0 Hdeleted].
  pose proof (Hflags _ _ _ Hdeleted) as Hgone.
  assert (Hw2 : (call (Repo_findById id) w1).2 = w2)
    by (by rewrite call_world, Hreads).
  split; [|split].
  - rewrite <- Hw2.
    destruct Hgone as [Habsent|(product & Hfound & Hflag)];
      [by apply findById_absent|by eapply findById_deleted].
  - intros file. rewrite <- Hw2. by apply uploadImage_not_live.
  - intros patch. rewrite <- Hw2.
    destruct Hgone as [Habsent|(product & Hfound & Hflag)].
    + left. by apply update_absent.
    + right. by eapply update_deleted.
Qed.

End ServiceMore.

(** ** products.controller.ts *)

Section ControllerFacts.
Context {E : Type} `{!Environment E} `{!DateToISOString}.

(** X13.  DELETE answers with its confirmation only for a removal that
    has happened: for an id without a live product it throws the NotFound
    exception of [remove] and says nothing else; when the soft delete has
    succeeded it returns the message that names the id, the status
    'success' and the time of the clock after the removal; and whenever it
    returns, [remove] has returned. *)
Theorem deleteProduct_confirms_a_removal_only id (w : World E) :
  (not_live id (ext w) →
     ProductsController.deleteProduct id w
       = (Thrown (notFound id), (call (Repo_findById id) w).2)) ∧
  (∀ product e1 e2,
     live id product (ext w) e1 →
     handle (Repo_softDelete id) e1 = (Returned tt, e2) →
     ProductsController.deleteProduct id w
       = (Returned
            {[ "message" :=
                 Str ("Товар с ID " +:+ pretty id +:+ " успешно удален");
               "status" := Str "success";
               "timestamp" := Str (toISOString (Date_now e2)) ]},
          mkWorld e2 (trace w ++
            [Called (Repo_findById id); Called (Repo_softDelete id)]))) ∧
  (∀ r w', ProductsController.deleteProduct id w = (Returned r, w') →
     ∃ w1, remove id w = (Returned tt, w1)).
Proof.
  split; [|split].
  - intros Hgone. unfold ProductsController.deleteProduct.
    by rewrite (bind_Thrown _ _ _ _ _ (remove_not_live _ _ Hgone)).
  - intros product e1 e2 [Hlookup Hlive] Hdelete.
    unfold ProductsController.deleteProduct.
    assert (Hremove : remove id w
              = (Returned tt,
                 mkWorld e2 (trace w ++
                   [Called (Repo_findById id); Called (Repo_softDelete id)]))).
    { unfold remove.
      rewrite (bind_Returned _ _ _ _ _
                 (call_handle (Repo_findById id) _ _ _ Hlookup)).
      rewrite Hlive.
      rewrite (call_handle (Repo_softDelete id)
                 (mkWorld e1 (trace w ++ [Called (Repo_findById id)])) _ _ Hdelete).
      simpl. by rewrite <- app_assoc. }
    by rewrite (bind_Returned _ _ _ _ _ Hremove).
  - intros r w'. unfold ProductsController.deleteProduct, bind at 1.
    destruct (remove id w) as [[[]|error] w1]; [|done]. by exists w1.
Qed.

End ControllerFacts.

(** ** The further properties on the reference environments *)

Section ReferenceFacts.
Import InMemory Reference.

Lemma returned_tt (r : outcome unit * World state) :
  has_returned r.1 = true → r = (Returned tt, r.2).
Proof. by destruct r as [[[]|error] w]. Qed.

Lemma getSignedUrl_swallows_failures_witness :
  getSignedUrl config (Str "") (start true) = (Returned null, start true) ∧
  getSignedUrl config (Str "product-1-1700000000000.jpg") (start true)
    = (Returned
         (Str ("https://minio.local/products/product-1-1700000000000.jpg"
                 +:+ "?X-Amz-Expires=604800")),
       mkWorld (catalogue true)
         (trace (start true) ++
            [Called (Minio_presignedGetObject (get config "MINIO_BUCKET")
                       (Str "product-1-1700000000000.jpg") (7 * 86400))])) ∧
  getSignedUrl config (Str "product-1-1700000000000.jpg") (start false)
    = (Returned null,
       mkWorld (catalogue false)
         (trace (start false) ++
            [Called (Minio_presignedGetObject (get config "MINIO_BUCKET")
                       (Str "product-1-1700000000000.jpg") (7 * 86400));
             Console Err [Text "Ошибка при генерации подписанной ссылки:";
                          Text (message (Error "connect ECONNREFUSED"))]])).
Proof.
  split; [|split].
  - apply (getSignedUrl_swallows_failures config (Str "") (start true)).
    compute_done.
  - apply (getSignedUrl_swallows_failures config
             (Str "product-1-1700000000000.jpg") (start true));
      compute_done.
  - apply (getSignedUrl_swallows_failures config
             (Str "product-1-1700000000000.jpg") (start false));
      compute_done.
Defined.

Lemma initializeBucket_never_throws_witness :
  initializeBucket config ready = (Returned tt, ready) ∧
  initializeBucket config fresh
    = (Returned tt,
       mkWorld (mkServer [Str "products"] true true)
         (trace fresh ++
            [Console Log [Text ("Бакет " +:+ quotationMark +:+ "products"
                                  +:+ quotationMark +:+ " создан в MinIO")]])) ∧
  initializeBucket config denied
    = (Returned tt,
       mkWorld (ext denied)
         (trace denied ++
            [Console Err [Text "Ошибка при инициализации бакета MinIO:";
                          Text (message (Error "Access Denied."))]])) ∧
  initializeBucket config offline
    = (Returned tt,
       mkWorld (ext offline)
         (trace offline ++
            [Console Err [Text "Ошибка при инициализации бакета MinIO:";
                          Text (message (Error "connect ECONNREFUSED"))]])).
Proof.
  split; [|split; [|split]].
  - apply (initializeBucket_never_throws config ready). compute_done.
  - apply (initializeBucket_never_throws config fresh) with (ext fresh);
      compute_done.
  - apply (initializeBucket_never_throws config denied) with (ext denied);
      compute_done.
  - apply (initializeBucket_never_throws config offline). compute_done.
Defined.

Lemma uploadProductImage_url_ends_with_key_witness :
  uploadProductImage config (buffer jpeg) 5 (start true)
    = (Returned "http://minio:9000/products/product-5-1700000123456.jpg",
       (uploadProductImage config (buffer jpeg) 5 (start true)).2) ∧
  pop (split "/" "http://minio:9000/products/product-5-1700000123456.jpg")
    = Str (objectKey 5 (Date_now (ext (start true)))).
Proof.
  assert (Hrun : uploadProductImage config (buffer jpeg) 5 (start true)
            = (Returned "http://minio:9000/products/product-5-1700000123456.jpg",
               (uploadProductImage config (buffer jpeg) 5 (start true)).2))
    by compute_done.
  split; [exact Hrun|].
  exact (proj1 (uploadProductImage_url_ends_with_key config _ _ _ _ _ Hrun)).
Defined.

Lemma uploadImage_failed_upload_updates_nothing_witness :
  (uploadImage config 1 (Some jpeg) (start false)).1
    = Thrown (InternalServerErrorException "Не удалось загрузить изображение") ∧
  Forall (λ ev, kind_of ev ≠ RepoUpdate)
    (trace (uploadImage config 1 (Some jpeg) (start false)).2).
Proof.
  set (w1 := mkWorld (catalogue false)
               (trace (start false) ++ [Called (Repo_findById 1)])).
  set (w2 := (deleteOldImage config (get widget "imageUrl") w1).2).
  rewrite (uploadImage_failed_upload_updates_nothing config 1 widget
             (catalogue false) jpeg w2 (Error "connect ECONNREFUSED")
             (catalogue false) (start false) (widget_is_live false));
    [|compute_done|apply returned_tt; compute_done|compute_done].
  split; [done|]. simpl. compute_done.
Defined.

Lemma uploadImage_signs_what_it_stored_witness :
  ∃ r w' t,
    uploadImage config 1 (Some jpeg) locked = (Returned r, w') ∧
    trace w' = trace (deleteOldImage config (get widget "imageUrl")
                        (mkWorld (ext locked)
                           (trace locked ++ [Called (Repo_findById 1)]))).2 ++
      Called (Minio_putObject (get config "MINIO_BUCKET")
                (objectKey 1 1700000123456) (buffer jpeg) (length (buffer jpeg))
                {[ "Content-Type" := Str "image/jpeg" ]})
      :: Called (Repo_update 1
                   {[ "imageUrl" :=
                        Str "http://minio:9000/products/product-1-1700000123456.jpg" ]})
      :: Called (Minio_presignedGetObject (get config "MINIO_BUCKET")
                   (Str (objectKey 1 1700000123456)) 604800) :: t ∧
    r !! "imageUrl"
      = Some (Str ("https://minio.local/products/product-1-1700000123456.jpg"
                     +:+ "?X-Amz-Expires=604800")).
Proof.
  set (w1 := mkWorld (ext locked) (trace locked ++ [Called (Repo_findById 1)])).
  set (w2 := (deleteOldImage config (get widget "imageUrl") w1).2).
  set (url := "http://minio:9000/products/product-1-1700000123456.jpg").
  set (w3 := (uploadProductImage config (buffer jpeg) 1 w2).2).
  set (updated := handle (Repo_update 1 {[ "imageUrl" := Str url ]}) (ext w3)).
  destruct (uploadImage_signs_what_it_stored config 1 widget (ext locked) jpeg
              w2 url w3 (value ∅ updated.1) updated.2 locked)
    as (r & w' & t & Hrun & Htrace & Hsigned & _);
    [split; compute_done|compute_done|apply returned_tt; compute_done
    |compute_done..|].
  exists r, w', t. split; [exact Hrun|]. split.
  - assert (Hclock : Date_now (ext w2) = 1700000123456) by compute_done.
    by rewrite Hclock in Htrace.
  - apply (Hsigned _ updated.2); compute_done.
Defined.

Lemma uploadImage_removes_the_old_image_only_witness :
  (∃ rest,
     trace (uploadImage config 1 (Some jpeg) (start true)).2
       = trace (start true) ++ Called (Repo_findById 1)
           :: Called (Minio_removeObject (get config "MINIO_BUCKET")
                        (at_length_minus_1 (split "/" widgetUrl)))
           :: rest ∧
     Forall (among [PutObject; RepoUpdate; PresignedGetObject; ConsoleLine])
       rest) ∧
  (∃ rest,
     trace (uploadImage config 2 (Some jpeg) (start true)).2
       = trace (start true) ++ Called (Repo_findById 2) :: rest ∧
     Forall (among [PutObject; RepoUpdate; PresignedGetObject; ConsoleLine])
       rest).
Proof.
  split.
  - apply (uploadImage_removes_the_old_image_only config 1 widget
             (catalogue true) jpeg (start true) (widget_is_live true));
      compute_done.
  - apply (uploadImage_removes_the_old_image_only config 2 gadget
             (catalogue true) jpeg (start true) gadget_is_live);
      compute_done.
Defined.

Lemma product_without_image_is_returned_as_stored_witness :
  findById config 2 (start true)
    = (Returned (delete "isDeleted" gadget),
       mkWorld (catalogue true)
         (trace (start true) ++ [Called (Repo_findById 2)])) ∧
  has_returned (update config 2 restock (start true)).1 = true ∧
  findAll config ∅ soldOut
    = (Returned (delete "isDeleted" <$> [gadget]),
       mkWorld (ext soldOut)
         (trace soldOut ++ [Called (Repo_findAll (withDefaultIncludeDeleted ∅))])).
Proof.
  destruct (product_without_image_is_returned_as_stored config (start true))
    as (HfindById & Hupdate & _).
  destruct (product_without_image_is_returned_as_stored config soldOut)
    as (_ & _ & HfindAll).
  split; [|split].
  - apply HfindById; [exact gadget_is_live|compute_done].
  - set (updated := handle (Repo_update 2 (withInStockFromStock restock))
                      (catalogue true)).
    rewrite (Hupdate 2 restock gadget (catalogue true) (value ∅ updated.1)
               updated.2 gadget_is_live); [done|compute_done..].
  - apply (HfindAll ∅ [gadget]); [compute_done|].
    by repeat constructor.
Defined.

Lemma findAll_signs_in_the_order_of_the_list_witness :
  ∃ t,
    trace (findAll config ∅ (start true)).2
      = trace (start true) ++ Called (Repo_findAll (withDefaultIncludeDeleted ∅))
          :: t ∧
    calls t = [Called (Minio_presignedGetObject (get config "MINIO_BUCKET")
                         (Str "product-1-1700000000000.jpg") 604800)].
Proof.
  destruct (findAll_signs_in_the_order_of_the_list config ∅ [widget; gadget]
              (catalogue true) (start true))
    as (t & Htrace & Hcalls);
    [compute_done|exact catalogue_images_typed|].
  exists t. split; [exact Htrace|]. rewrite Hcalls. compute_done.
Defined.

Lemma removed_product_is_gone_for_all_witness :
  remove 1 (start true) = (Returned tt, (remove 1 (start true)).2) ∧
  (findById config 1 (remove 1 (start true)).2).1 = Thrown (notFound 1) ∧
  (uploadImage config 1 (Some jpeg) (remove 1 (start true)).2).1
    = Thrown (notFound 1).
Proof.
  assert (Hremoved : remove 1 (start true)
                     = (Returned tt, (remove 1 (start true)).2))
    by compute_done.
  destruct (removed_product_is_gone_for_all config 1 (start true) _
              in_memory_contract Hremoved) as (HfindById & HuploadImage & _).
  split; [exact Hremoved|]. split.
  - by rewrite HfindById.
  - by rewrite (HuploadImage (Some jpeg)).
Defined.

Lemma deleteProduct_confirms_a_removal_only_witness :
  ProductsController.deleteProduct 3 (start true)
    = (Thrown (notFound 3), (call (Repo_findById 3) (start true)).2) ∧
  ProductsController.deleteProduct 1 (start true)
    = (Returned
         {[ "message" := Str ("Товар с ID " +:+ pretty (1:Z) +:+ " успешно удален");
            "status" := Str "success";
            "timestamp" := Str "2023-11-14T22:15:23.456Z" ]},
       mkWorld (repo_softDelete 1 (catalogue true))
         (trace (start true) ++
            [Called (Repo_findById 1); Called (Repo_softDelete 1)])).
Proof.
  destruct (deleteProduct_confirms_a_removal_only 1 (start true))
    as (_ & Hremoved & _).
  split.
  - exact (proj1 (deleteProduct_confirms_a_removal_only 3 (start true))
             gizmo_is_not_live).
  - rewrite (Hremoved widget (catalogue true) (repo_softDelete 1 (catalogue true))
               (widget_is_live true)); [|compute_done].
    assert (Hclock : toISOString (Date_now (repo_softDelete 1 (catalogue true)))
                     = "2023-11-14T22:15:23.456Z") by compute_done.
    by rewrite Hclock.
Defined.

End ReferenceFacts.

Section ReplicaFacts.
Import InMemory Reference.
#[local] Existing Instance reading.

Lemma repository_errors_pass_through_witness :
  findAll config ∅ disconnected
    = (Thrown (Error "Connection terminated"),
       mkWorld (ext disconnected)
         (trace disconnected ++
            [Called (Repo_findAll (withDefaultIncludeDeleted ∅))])) ∧
  findById config 1 disconnected
    = (Thrown (Error "Connection terminated"),
       mkWorld (ext disconnected)
         (trace disconnected ++ [Called (Repo_findById 1)])) ∧
  create newWidget disconnected
    = (Thrown (Error "Connection terminated"),
       mkWorld (ext disconnected)
         (trace disconnected ++
            [Called (Repo_create (withInStockOnZeroStock newWidget))])) ∧
  update config 2 restock standby
    = (refused,
       mkWorld (ext standby)
         (trace standby ++
            [Called (Repo_findById 2);
             Called (Repo_update 2 (withInStockFromStock restock))])) ∧
  remove 2 standby
    = (refused,
       mkWorld (ext standby)
         (trace standby ++ [Called (Repo_findById 2); Called (Repo_softDelete 2)])).
Proof.
  destruct (repository_errors_pass_through config disconnected)
    as (HfindAll & Hlookup & Hcreate & _).
  destruct (repository_errors_pass_through config standby)
    as (_ & _ & _ & Hupdate & Hremove).
  assert (Hgadget : live 2 gadget (ext standby) (ext standby))
    by (split; compute_done).
  split; [|split; [|split; [|split]]].
  - apply HfindAll. compute_done.
  - assert (Hdown : handle (Repo_findById 1) (ext disconnected)
                     = (Thrown (Error "Connection terminated"), ext disconnected))
      by compute_done.
    exact (proj1 (Hlookup 1 ∅ _ _ Hdown)).
  - apply Hcreate. compute_done.
  - apply (Hupdate 2 restock gadget (ext standby)); [exact Hgadget|compute_done].
  - apply (Hremove 2 gadget (ext standby)); [exact Hgadget|compute_done].
Defined.

End ReplicaFacts.
